(** * IDW raster engine: a shallow embedding of [idw.js] and [idw_2.js]

    The development follows the two JavaScript modules of the service:
    the geo-projection and haversine helpers, the gradient lookup builder,
    and the two interpolation loops [interpolateIDW] (fine-grained) and
    [interpolateIDW_directdraw] (feathered).

    Numbers.  A JavaScript number is modelled by [num]: a real number or
    one of the three special values [+Infinity], [-Infinity], [NaN].  Finite
    arithmetic is exact (rounding error, overflow, underflow and the sign of
    zero of IEEE-754 doubles are outside the model); the special values
    follow the IEEE rules the source relies on ([0/0 = NaN],
    [x/Infinity = 0], [Infinity || 1e-6 = Infinity], [NaN > x = false]).
    The trigonometric helpers work on real numbers, on the domain where the
    source's results are finite.

    Calls.  A call returns, throws the [TypeError] of reading a property of
    [undefined], or runs for ever ([outcome]).  The result of a render is
    [png.data], the RGBA byte buffer that is handed to the PNG encoder; the
    encoder and the colour parser are external libraries. *)

From Stdlib Require Import Reals Lra Lia ZArith List Bool Arith.
From Stdlib Require Import Sorted Permutation.
From Stdlib Require String.
Import ListNotations.

Local Open Scope R_scope.

(* ===================================================================== *)
(** ** JavaScript numbers *)
(* ===================================================================== *)

Inductive num : Type :=
| Fin (x : R)
| PInf
| NInf
| NaN.

Module JS.

(** The infinity with the sign of [x]; [NaN] for [x = 0] (as in [0 * Infinity]
    and [0 / 0]). *)
Definition inf_signed (x : R) : num :=
  if Rlt_dec 0 x then PInf else if Rlt_dec x 0 then NInf else NaN.

Definition neg (a : num) : num :=
  match a with
  | Fin x => Fin (- x)
  | PInf => NInf
  | NInf => PInf
  | NaN => NaN
  end.

(** [a + b] *)
Definition add (a b : num) : num :=
  match a, b with
  | NaN, _ | _, NaN => NaN
  | Fin x, Fin y => Fin (x + y)
  | PInf, NInf | NInf, PInf => NaN
  | PInf, _ | _, PInf => PInf
  | NInf, _ | _, NInf => NInf
  end.

(** [a - b] *)
Definition sub (a b : num) : num := add a (neg b).

(** [a * b] *)
Definition mul (a b : num) : num :=
  match a, b with
  | NaN, _ | _, NaN => NaN
  | Fin x, Fin y => Fin (x * y)
  | Fin x, PInf | PInf, Fin x => inf_signed x
  | Fin x, NInf | NInf, Fin x => neg (inf_signed x)
  | PInf, PInf | NInf, NInf => PInf
  | PInf, NInf | NInf, PInf => NInf
  end.

(** [a / b]: a finite number over zero is an infinity of its sign, [0/0] and
    [Infinity/Infinity] are [NaN], a finite number over an infinity is [0]. *)
Definition div (a b : num) : num :=
  match a, b with
  | NaN, _ | _, NaN => NaN
  | Fin x, Fin y => if Req_dec_T y 0 then inf_signed x else Fin (x / y)
  | Fin _, PInf | Fin _, NInf => Fin 0
  | PInf, Fin y => if Rlt_dec y 0 then NInf else PInf
  | NInf, Fin y => if Rlt_dec y 0 then PInf else NInf
  | PInf, PInf | PInf, NInf | NInf, PInf | NInf, NInf => NaN
  end.

(** [Math.min(a, b)]: [NaN] as soon as one argument is. *)
Definition min (a b : num) : num :=
  match a, b with
  | NaN, _ | _, NaN => NaN
  | NInf, _ | _, NInf => NInf
  | PInf, c | c, PInf => c
  | Fin x, Fin y => Fin (Rmin x y)
  end.

(** [Math.max(a, b)] *)
Definition max (a b : num) : num :=
  match a, b with
  | NaN, _ | _, NaN => NaN
  | PInf, _ | _, PInf => PInf
  | NInf, c | c, NInf => c
  | Fin x, Fin y => Fin (Rmax x y)
  end.

(** [a > b]: false when an argument is [NaN]. *)
Definition gt (a b : num) : bool :=
  match a, b with
  | NaN, _ | _, NaN => false
  | PInf, PInf => false
  | PInf, _ => true
  | _, PInf => false
  | NInf, _ => false
  | Fin _, NInf => true
  | Fin x, Fin y => if Rlt_dec y x then true else false
  end.

(** [a === 0] *)
Definition is_zero (a : num) : bool :=
  match a with
  | Fin x => if Req_dec_T x 0 then true else false
  | _ => false
  end.

(** Truthiness of a number: [0] and [NaN] are falsy. *)
Definition truthy (a : num) : bool :=
  match a with
  | Fin x => if Req_dec_T x 0 then false else true
  | PInf | NInf => true
  | NaN => false
  end.

(** [a || b] *)
Definition or (a b : num) : num := if truthy a then a else b.

(** [Math.round(a)]: the nearest integer, halves towards [+Infinity]. *)
Definition round (a : num) : num :=
  match a with
  | Fin x => Fin (IZR (Zfloor (x + 1 / 2)))
  | _ => a
  end.

(** [Math.pow(x, y)] for finite [x] and [y]. *)
Definition pow (x y : R) : num :=
  if Req_dec_T y 0 then Fin 1
  else if Rlt_dec 0 x then Fin (Rpower x y)
  else if Req_dec_T x 0 then (if Rlt_dec 0 y then Fin 0 else PInf)
  else if Req_dec_T (IZR (Zfloor y)) y then Fin (powerRZ x (Zfloor y))
  else NaN.

(** Truncation towards zero. *)
Definition trunc (x : R) : Z :=
  if Rle_dec 0 x then Zfloor x else Zceil x.

(** The byte a typed array stores for a number ([ToUint8]): [NaN] and the
    infinities become [0], a finite number is truncated and reduced
    modulo 256. *)
Definition toUint8 (a : num) : Z :=
  match a with
  | Fin x => (trunc x mod 256)%Z
  | _ => 0%Z
  end.

Definition is_fin (a : num) : Prop :=
  match a with Fin _ => True | _ => False end.

End JS.

(* ===================================================================== *)
(** ** Outcomes of a call *)
(* ===================================================================== *)

(** The only exception the modules can raise themselves is the [TypeError]
    of reading a property of [undefined]. *)
Inductive exn : Type := TypeError.

Inductive outcome (A : Type) : Type :=
| Returned (a : A)
| Thrown (e : exn)
| Diverges.

Arguments Returned {A} a.
Arguments Thrown {A} e.
Arguments Diverges {A}.

Definition bind {A B : Type} (m : outcome A) (k : A -> outcome B) : outcome B :=
  match m with
  | Returned a => k a
  | Thrown e => Thrown e
  | Diverges => Diverges
  end.

Notation "x <- m ;; k" := (bind m (fun x => k))
  (at level 61, m at next level, right associativity).

(** A [for] loop over [l] whose body may throw. *)
Fixpoint forM {A S : Type} (body : S -> A -> outcome S) (l : list A) (s : S)
  : outcome S :=
  match l with
  | [] => Returned s
  | a :: l' => s' <- body s a ;; forM body l' s'
  end.

(** [xs.map(f)] for an [f] that may throw. *)
Fixpoint mapM {A B : Type} (f : A -> outcome B) (l : list A) : outcome (list B) :=
  match l with
  | [] => Returned []
  | a :: l' => b <- f a ;; bs <- mapM f l' ;; Returned (b :: bs)
  end.

(* ===================================================================== *)
(** ** Geo-projection and distance *)
(* ===================================================================== *)

Record LatLng : Type := mkLatLng { lat : R; lng : R }.

Record Bounds : Type := mkBounds {
  minLat : R;
  minLng : R;
  maxLat : R;
  maxLng : R
}.

(** [latToMerc]: latitude in degrees to Mercator Y. *)
Definition latToMerc (lat : R) : R :=
  let rad := (lat * PI) / 180 in
  ln (tan (PI / 4 + rad / 2)).

(** [mercToLat]: Mercator Y to latitude in degrees. *)
Definition mercToLat (mercY : R) : R :=
  (2 * atan (exp mercY) - PI / 2) * (180 / PI).

(** The Mercator Y that [pixelToLatLng] interpolates for row [y]
    (the local [mercY] of the source). *)
Definition pixelMercY (y height : R) (bounds : Bounds) : R :=
  let minMerc := latToMerc (minLat bounds) in
  let maxMerc := latToMerc (maxLat bounds) in
  let tY := y / height in
  minMerc + tY * (maxMerc - minMerc).

(** [pixelToLatLng]: Web Mercator for latitude, linear for longitude. *)
Definition pixelToLatLng (x y width height : R) (bounds : Bounds) : LatLng :=
  let mercY := pixelMercY y height bounds in
  let tX := x / width in
  {| lat := mercToLat mercY;
     lng := minLng bounds + tX * (maxLng bounds - minLng bounds) |}.

(** [Math.atan2(y, x)] on finite arguments. *)
Definition atan2 (y x : R) : R :=
  if Rlt_dec 0 x then atan (y / x)
  else if Rlt_dec x 0 then
    (if Rle_dec 0 y then atan (y / x) + PI else atan (y / x) - PI)
  else if Rlt_dec 0 y then PI / 2
  else if Rlt_dec y 0 then - (PI / 2)
  else 0.

Definition toRad (deg : R) : R := (deg * PI) / 180.

(** [haversine]: great-circle distance in meters. *)
Definition haversine (a b : LatLng) : R :=
  let R0 := 6371000 in
  let dLat := toRad (lat b - lat a) in
  let dLng := toRad (lng b - lng a) in
  let lat1 := toRad (lat a) in
  let lat2 := toRad (lat b) in
  let aVal :=
    (sin (dLat / 2)) ^ 2 + cos lat1 * cos lat2 * (sin (dLng / 2)) ^ 2 in
  R0 * 2 * atan2 (sqrt aVal) (sqrt (1 - aVal)).

(* ===================================================================== *)
(** ** Gradient lookup table *)
(* ===================================================================== *)

(** The result of [tinycolor(c).toRgb()]: integer components. *)
Record Rgb : Type := mkRgb { rgb_r : Z; rgb_g : Z; rgb_b : Z }.

(** A gradient object [{0: '#000066', 0.1: 'blue', ...}], as the list of its
    properties: the numeric value of the key ([Number(key)]) and the colour
    [tinycolor] parses from the property value. *)
Definition Gradient : Type := list (R * Rgb).

(** [tinycolor(gradient[s]).toRgb()]; an absent property parses to black. *)
Fixpoint gradientColor (gradient : Gradient) (s : R) : Rgb :=
  match gradient with
  | [] => mkRgb 0 0 0
  | (k, c) :: rest => if Req_dec_T k s then c else gradientColor rest s
  end.

(** [.sort((a, b) => a - b)]: ascending, stable. *)
Fixpoint insertSorted (a : R) (l : list R) : list R :=
  match l with
  | [] => [a]
  | b :: l' => if Rle_dec a b then a :: b :: l' else b :: insertSorted a l'
  end.

Definition sortAscending (l : list R) : list R :=
  fold_right insertSorted [] l.

(** [xs.findIndex(p)], [-1] when no element satisfies [p]. *)
Fixpoint findIndex {A : Type} (p : A -> bool) (l : list A) : Z :=
  match l with
  | [] => (-1)%Z
  | a :: l' =>
      if p a then 0%Z
      else let k := findIndex p l' in
           if (k =? -1)%Z then (-1)%Z else (k + 1)%Z
  end.

(** [xs[k]] for an integer [k]: [None] is [undefined]. *)
Definition index {A : Type} (l : list A) (k : Z) : option A :=
  if (k <? 0)%Z then None else nth_error l (Z.to_nat k).

(** One table entry: an [[r, g, b]] array. *)
Definition Entry : Type := (num * num * num)%type.

(** [Math.round(c0 + (c1 - c0) * f)] *)
Definition mixChannel (c0 c1 : Z) (f : num) : num :=
  JS.round (JS.add (Fin (IZR c0)) (JS.mul (JS.sub (Fin (IZR c1)) (Fin (IZR c0))) f)).

(** The body of the loop of [createGradientLookup] for index [i]. *)
Definition lookupEntry (stops : list R) (colors : list Rgb) (i : nat)
  : outcome Entry :=
  let t := INR i / 255 in
  let found := findIndex (fun s => if Rle_dec t s then true else false) stops in
  let idx :=
    if (found =? -1)%Z then (Z.of_nat (length stops) - 1)%Z else found in
  if (idx =? 0)%Z then
    match index colors 0 with
    | Some c =>
        Returned (Fin (IZR (rgb_r c)), Fin (IZR (rgb_g c)), Fin (IZR (rgb_b c)))
    | None => Thrown TypeError
    end
  else
    match index stops (idx - 1), index stops idx,
          index colors (idx - 1), index colors idx with
    | Some s0, Some s1, Some c0, Some c1 =>
        let f := JS.div (JS.sub (Fin t) (Fin s0)) (JS.sub (Fin s1) (Fin s0)) in
        Returned (mixChannel (rgb_r c0) (rgb_r c1) f,
                  mixChannel (rgb_g c0) (rgb_g c1) f,
                  mixChannel (rgb_b c0) (rgb_b c1) f)
    | _, _, _, _ => Thrown TypeError
    end.

(** [createGradientLookup] *)
Definition createGradientLookup (gradient : Gradient) : outcome (list Entry) :=
  let stops := sortAscending (map fst gradient) in
  let colors := map (gradientColor gradient) stops in
  mapM (lookupEntry stops colors) (seq 0 256).

(** [grad[k]] for a number [k]: defined only at an integer index inside
    the table. *)
Definition tableGet (grad : list Entry) (k : num) : option Entry :=
  match k with
  | Fin x =>
      if Req_dec_T (IZR (Zfloor x)) x then index grad (Zfloor x) else None
  | _ => None
  end.

(* ===================================================================== *)
(** ** Pixel buffer *)
(* ===================================================================== *)

(** [data[idx] = v] on a byte buffer: a write outside the buffer is
    ignored, as on a typed array. *)
Fixpoint write (data : list Z) (idx : nat) (v : Z) : list Z :=
  match data, idx with
  | [], _ => []
  | _ :: rest, O => v :: rest
  | d :: rest, S i => d :: write rest i v
  end.

(** The four numbers assigned to the channels of one pixel. *)
Record Pixel : Type := mkPixel { px_r : num; px_g : num; px_b : num; px_a : num }.

(** [idx = (py * width + px) * 4] and the four assignments at
    [idx .. idx + 3]. *)
Definition setPixel (width px py : nat) (c : Pixel) (data : list Z) : list Z :=
  let idx := ((py * width + px) * 4)%nat in
  let d0 := write data idx (JS.toUint8 (px_r c)) in
  let d1 := write d0 (idx + 1) (JS.toUint8 (px_g c)) in
  let d2 := write d1 (idx + 2) (JS.toUint8 (px_b c)) in
  write d2 (idx + 3) (JS.toUint8 (px_a c)).

(** The [dy]/[dx] loops that fill the block of the cell at [(x, y)]. *)
Definition fillCell (width height r x y : nat) (c : Pixel) (data : list Z)
  : list Z :=
  fold_left (fun d dy =>
    fold_left (fun d dx =>
      let px := (x + dx)%nat in
      let py := (y + dy)%nat in
      if (px <? width)%nat && (py <? height)%nat
      then setPixel width px py c d else d)
      (seq 0 r) d)
    (seq 0 r) data.

(* ===================================================================== *)
(** ** Inputs *)
(* ===================================================================== *)

(** A sample point [[lat, lng, value]]. *)
Record Point : Type := mkPoint { pt_lat : R; pt_lng : R; pt_val : R }.

(** The [options] object; [None] is an omitted ([undefined]) property. *)
Module Options.
Record t : Type := mk {
  width : nat;
  height : nat;
  cellSize : option nat;
  max : option R;
  gradient : Gradient;
  bounds : Bounds;
  exp : option R
}.
End Options.

(** A destructuring default [name = dflt]. *)
Definition orDefault {A : Type} (o : option A) (dflt : A) : A :=
  match o with Some a => a | None => dflt end.

(* ===================================================================== *)
(** ** The IDW sum of one cell *)
(* ===================================================================== *)

Definition EPS : R := 1 / 1000000.

(** [Math.pow(dist, exp) || 1e-6] *)
Definition dist2 (dist e : R) : num := JS.or (JS.pow dist e) (Fin EPS).

(** The accumulators of the loop over the points. *)
Record Acc : Type := mkAcc { numerator : num; denominator : num; minDist : num }.

Definition accInit : Acc :=
  {| numerator := Fin 0; denominator := Fin 0; minDist := PInf |}.

(** The body of [for (const pt of points)] in [interpolateIDW_directdraw]. *)
Definition accumulate (latlng : LatLng) (e : R) (acc : Acc) (pt : Point) : Acc :=
  let dist := haversine latlng {| lat := pt_lat pt; lng := pt_lng pt |} in
  let minDist' := JS.min (minDist acc) (Fin dist) in
  let val := pt_val pt in
  let d2 := dist2 dist e in
  {| numerator := JS.add (numerator acc) (JS.div (Fin val) d2);
     denominator := JS.add (denominator acc) (JS.div (Fin 1) d2);
     minDist := minDist' |}.

Definition accumulateAll (latlng : LatLng) (e : R) (points : list Point) : Acc :=
  fold_left (accumulate latlng e) points accInit.

(** [numerator / denominator]: the interpolated value of the cell centred at
    [latlng], before it is clamped to [max]. *)
Definition cellValue (latlng : LatLng) (e : R) (points : list Point) : num :=
  let acc := accumulateAll latlng e points in
  JS.div (numerator acc) (denominator acc).

(** The [minDist] of the cell after the loop. *)
Definition cellMinDist (latlng : LatLng) (e : R) (points : list Point) : num :=
  minDist (accumulateAll latlng e points).

(* ===================================================================== *)
(** ** Loop ranges *)
(* ===================================================================== *)

(** [Math.ceil(a / r)] for integers [a >= 0] and [r >= 1]. *)
Definition ceilDiv (a r : nat) : nat := ((a + r - 1) / r)%nat.

(** The values of [v] visited by [for (v = start; v < stop; v += step)],
    at most [fuel] of them. *)
Fixpoint stepFrom (fuel start stop step : nat) : list nat :=
  match fuel with
  | O => []
  | S fuel' =>
      if (start <? stop)%nat
      then start :: stepFrom fuel' (start + step) stop step
      else []
  end.

(** [for (v = 0; v < stop; v += step)] with [step >= 1]: [stop] iterations
    are enough. *)
Definition stepRange (stop step : nat) : list nat := stepFrom stop 0 stop step.

(* ===================================================================== *)
(** ** [interpolateIDW_directdraw] (idw_2.js) *)
(* ===================================================================== *)

Module DirectDraw.

Definition FADE_DISTANCE : R := 100000.

(** [interpolVal = Math.min(interpolVal, max)] *)
Definition clampToMax (interpolVal : num) (max : R) : num :=
  JS.min interpolVal (Fin max).

(** [gradientIndex], from the clamped [interpolVal]. *)
Definition gradientIndex (interpolVal : num) (max : R) : num :=
  if JS.is_zero (Fin max) then Fin 0
  else JS.round (JS.mul (JS.div interpolVal (Fin max)) (Fin 255)).

(** [alpha], from the [minDist] of the cell. *)
Definition featherAlpha (minDist : num) : num :=
  if JS.gt minDist (Fin FADE_DISTANCE)
  then JS.max (Fin 0)
         (JS.sub (Fin 1)
            (JS.div (JS.sub minDist (Fin FADE_DISTANCE)) (Fin FADE_DISTANCE)))
  else Fin 1.

(** [Math.round(interpColor[k] * alpha + bg[k] * (1 - alpha))] *)
Definition blend (ic bg alpha : num) : num :=
  JS.round (JS.add (JS.mul ic alpha) (JS.mul bg (JS.sub (Fin 1) alpha))).

(** The colour and alpha of the cell centred at [latlng]; reading
    [interpColor[0]] throws when [grad[gradientIndex]] is [undefined]. *)
Definition cellPixel (points : list Point) (e max : R) (grad : list Entry)
  (bg : Entry) (latlng : LatLng) : outcome Pixel :=
  let acc := accumulateAll latlng e points in
  let interpolVal := JS.div (numerator acc) (denominator acc) in
  let interpolVal := clampToMax interpolVal max in
  let gi := gradientIndex interpolVal max in
  let alpha := featherAlpha (minDist acc) in
  match tableGet grad gi with
  | None => Thrown TypeError
  | Some (ic0, ic1, ic2) =>
      let '(bg0, bg1, bg2) := bg in
      Returned {| px_r := blend ic0 bg0 alpha;
                  px_g := blend ic1 bg1 alpha;
                  px_b := blend ic2 bg2 alpha;
                  px_a := JS.round (JS.mul (Fin 255) alpha) |}
  end.

(** The prefill of the whole image with [bg] at full opacity. *)
Definition prefill (width height : nat) (bg : Entry) (data : list Z) : list Z :=
  let '(bg0, bg1, bg2) := bg in
  let alpha := Fin 1 in
  fold_left (fun d py =>
    fold_left (fun d px =>
      setPixel width px py
        {| px_r := bg0; px_g := bg1; px_b := bg2;
           px_a := JS.round (JS.mul (Fin 255) alpha) |} d)
      (seq 0 width) d)
    (seq 0 height) data.

(** The centre of the cell at pixel [(x, y)], projected. *)
Definition cellCentre (width height r x y : nat) (bounds : Bounds) : LatLng :=
  let cellCen := INR r / 2 in
  pixelToLatLng (INR x + cellCen) (INR y + cellCen) (INR width) (INR height)
    bounds.

(** The body of the [j] loop for cell [(i, j)]. *)
Definition cellStep (width height r : nat) (points : list Point) (e max : R)
  (grad : list Entry) (bg : Entry) (bounds : Bounds) (i j : nat)
  (data : list Z) : outcome (list Z) :=
  let x := (j * r)%nat in
  let y := (i * r)%nat in
  let latlng := cellCentre width height r x y bounds in
  c <- cellPixel points e max grad bg latlng ;;
  Returned (fillCell width height r x y c data).

(** The [i]/[j] loops.  For [r = 0] the bounds [Math.ceil(width / r)] are
    [Infinity] (or [NaN] for a zero extent, which runs no iteration): the
    loops then repeat the cell at [(0, 0)] for ever, unless it throws. *)
Definition drawCells (width height r : nat) (points : list Point) (e max : R)
  (grad : list Entry) (bg : Entry) (bounds : Bounds) (data : list Z)
  : outcome (list Z) :=
  if (r =? 0)%nat then
    if (height =? 0)%nat then Returned data
    else if (width =? 0)%nat then Diverges
    else _ <- cellStep width height r points e max grad bg bounds 0 0 data ;;
         Diverges
  else
    let nCellX := ceilDiv width r in
    let nCellY := ceilDiv height r in
    forM (fun d i =>
      forM (fun d j =>
        cellStep width height r points e max grad bg bounds i j d)
        (seq 0 nCellX) d)
      (seq 0 nCellY) data.

(** [interpolateIDW_directdraw(points, options)].  [fresh] is the content of
    the buffer [new PNG({ width, height })] allocates ([4 * width * height]
    bytes); the result is [png.data] as handed to the PNG encoder. *)
Definition interpolateIDW_directdraw (points : list Point) (options : Options.t)
  (fresh : list Z) : outcome (list Z) :=
  let width := Options.width options in
  let height := Options.height options in
  let cellSize := orDefault (Options.cellSize options) 10%nat in
  let max := orDefault (Options.max options) 1 in
  let exp := orDefault (Options.exp options) 2 in
  grad <- createGradientLookup (Options.gradient options) ;;
  match index grad 0 with
  | None => Thrown TypeError
  | Some bg =>
      let data := prefill width height bg fresh in
      drawCells width height cellSize points exp max grad bg
        (Options.bounds options) data
  end.

End DirectDraw.

(* ===================================================================== *)
(** ** [interpolateIDW] (idw.js) *)
(* ===================================================================== *)

Module FineGrained.

(** [options.exp || 2] *)
Definition effectiveExp (e : option R) : R :=
  match e with
  | Some x => if Req_dec_T x 0 then 2 else x
  | None => 2
  end.

(** The body of [for (const p of points)]: numerator and denominator. *)
Definition accumulate (latlng : LatLng) (e : option R) (acc : num * num)
  (p : Point) : num * num :=
  let dist := haversine latlng {| lat := pt_lat p; lng := pt_lng p |} in
  let val := pt_val p in
  let exp := effectiveExp e in
  let d2 := dist2 dist exp in
  (JS.add (fst acc) (JS.div (Fin val) d2),
   JS.add (snd acc) (JS.div (Fin 1) d2)).

(** The colour of the cell centred at [latlng]; reading [color[0]] throws
    when the table entry is [undefined]. *)
Definition cellPixel (points : list Point) (e : option R) (max : R)
  (grad : list Entry) (latlng : LatLng) : outcome Pixel :=
  let acc := fold_left (accumulate latlng e) points (Fin 0, Fin 0) in
  let interpolVal := JS.div (fst acc) (snd acc) in
  let interpolVal := JS.min interpolVal (Fin max) in
  match tableGet grad
          (JS.round (JS.mul (JS.div interpolVal (Fin max)) (Fin 255))) with
  | None => Thrown TypeError
  | Some (c0, c1, c2) =>
      Returned {| px_r := c0; px_g := c1; px_b := c2; px_a := Fin 255 |}
  end.

(** The body of the [x] loop for the cell at pixel [(x, y)]. *)
Definition cellStep (width height cellSize : nat) (points : list Point)
  (e : option R) (max : R) (grad : list Entry) (bounds : Bounds) (y x : nat)
  (data : list Z) : outcome (list Z) :=
  let latlng :=
    pixelToLatLng (INR x + INR cellSize / 2) (INR y + INR cellSize / 2)
      (INR width) (INR height) bounds in
  c <- cellPixel points e max grad latlng ;;
  Returned (fillCell width height cellSize x y c data).

(** The [y]/[x] loops.  With [cellSize = 0] the loop variables never
    advance: the cell at [(0, 0)] is repeated for ever, unless it throws. *)
Definition drawCells (width height cellSize : nat) (points : list Point)
  (e : option R) (max : R) (grad : list Entry) (bounds : Bounds)
  (data : list Z) : outcome (list Z) :=
  if (cellSize =? 0)%nat then
    if (height =? 0)%nat then Returned data
    else if (width =? 0)%nat then Diverges
    else _ <- cellStep width height cellSize points e max grad bounds 0 0 data ;;
         Diverges
  else
    forM (fun d y =>
      forM (fun d x =>
        cellStep width height cellSize points e max grad bounds y x d)
        (stepRange width cellSize) d)
      (stepRange height cellSize) data.

(** [interpolateIDW(points, options)]; [fresh] as for the direct-draw
    variant. *)
Definition interpolateIDW (points : list Point) (options : Options.t)
  (fresh : list Z) : outcome (list Z) :=
  let width := Options.width options in
  let height := Options.height options in
  let cellSize := orDefault (Options.cellSize options) 1%nat in
  let max := orDefault (Options.max options) 1 in
  grad <- createGradientLookup (Options.gradient options) ;;
  drawCells width height cellSize points (Options.exp options) max grad
    (Options.bounds options) fresh.

End FineGrained.

(* ===================================================================== *)
(** ** The [POST /interpolate] handler (server.js) *)
(* ===================================================================== *)

Module Server.

Import String.

(** The parsed JSON body: each field is absent or carries a value of the
    type the renderer expects. *)
Record Body := mkBody {
  points : option (list Point);
  width : option nat;
  height : option nat;
  cellSize : option nat;
  max : option R;
  gradient : option Gradient;
  bounds : option Bounds;
  exp : option R
}.

(** What the handler sends: [res.status(400).json({ error })] with the
    fixed text, [res.status(500).json({ error: err.message })] for the
    exception caught, or [res.send(pngBuffer)] for the pixel buffer handed
    to the PNG encoder. *)
Inductive Response :=
| status400 (error : String.string)
| status500 (err : exn)
| sendPng (data : list Z).

Definition missingParameters : String.string :=
  "Missing required parameters."%string.

(** [(req, res) => { try { ... } catch (err) { ... } }].  [alloc n] is the
    content of the [n]-byte buffer that [new PNG({ width, height })]
    allocates.  [!width] and [!height] hold for an absent field and for 0;
    an array or an object, empty or not, is truthy. *)
Definition handler (alloc : nat -> list Z) (body : Body) : outcome Response :=
  match points body, width body, height body, gradient body, bounds body with
  | Some pts, Some w, Some h, Some g, Some bd =>
      if ((w =? 0) || (h =? 0))%nat
      then Returned (status400 missingParameters)
      else
        let options := Options.mk w h (cellSize body) (max body) g bd (exp body) in
        match DirectDraw.interpolateIDW_directdraw pts options
                (alloc (4 * w * h)%nat) with
        | Returned pngBuffer => Returned (sendPng pngBuffer)
        | Thrown err => Returned (status500 err)
        | Diverges => Diverges
        end
  | _, _, _, _, _ => Returned (status400 missingParameters)
  end.

End Server.

(* ===================================================================== *)
(** ** Reference formulas and sample inputs *)
(* ===================================================================== *)

(** Sum of [f] over the points. *)
Definition sumOver (f : Point -> R) (points : list Point) : R :=
  fold_right (fun p s => f p + s) 0 points.

(** The distance of a sample point to [latlng]. *)
Definition distTo (latlng : LatLng) (pt : Point) : R :=
  haversine latlng {| lat := pt_lat pt; lng := pt_lng pt |}.

(** [1 / dist2] as a real number: [0] when [dist2] is infinite. *)
Definition termWeight (d e : R) : R :=
  match dist2 d e with
  | Fin p => 1 / p
  | _ => 0
  end.





(** The alpha of the specification for a configured [fadeDistance]. *)
Definition specAlpha (fadeDistance minDist : R) : R :=
  if Rlt_dec fadeDistance minDist
  then Rmax 0 (1 - (minDist - fadeDistance) / fadeDistance)
  else 1.

(** Smallest and largest sample value. *)
Definition minValue (points : list Point) : R :=
  fold_right (fun p m => Rmin (pt_val p) m)
    (match points with [] => 0 | p :: _ => pt_val p end) points.

Definition maxValue (points : list Point) : R :=
  fold_right (fun p m => Rmax (pt_val p) m)
    (match points with [] => 0 | p :: _ => pt_val p end) points.

Definition bounds_0_10 : Bounds :=
  {| minLat := 0; minLng := 0; maxLat := 10; maxLng := 10 |}.

Definition origin : LatLng := {| lat := 0; lng := 0 |}.




(** One sample of value [-1] at the origin. *)
Definition negativePoint : list Point :=
  [ {| pt_lat := 0; pt_lng := 0; pt_val := -1 |} ].

(** The index [idx] that the loop body settles on. *)
Definition stopIndex (stops : list R) (t : R) : Z :=
  let found := findIndex (fun s => if Rle_dec t s then true else false) stops in
  if (found =? -1)%Z then (Z.of_nat (length stops) - 1)%Z else found.


(** The entry of a table, [NaN] components where the body throws. *)
Definition entryAt (stops : list R) (colors : list Rgb) (i : nat) : Entry :=
  match lookupEntry stops colors i with
  | Returned entry => entry
  | _ => (NaN, NaN, NaN)
  end.


(** The locals [stops] and [colors] of [createGradientLookup]. *)
Definition sortedStops (gradient : Gradient) : list R :=
  sortAscending (map fst gradient).

Definition stopColors (gradient : Gradient) : list Rgb :=
  map (gradientColor gradient) (sortedStops gradient).

Definition black : Rgb := mkRgb 0 0 0.
Definition white : Rgb := mkRgb 255 255 255.

(** The gradient [{0: "#000000", 0.5: "#ffffff"}]: its highest stop is
    below 1. *)
Definition halfGradient : Gradient := [(0, black); (1 / 2, white)].

(* ===================================================================== *)
(** ** Relating two runs on the pixel buffer *)
(* ===================================================================== *)

(** Two buffers of one size that hold the same byte at every index in [P]. *)
Definition agreeOn (P : nat -> Prop) (d1 d2 : list Z) : Prop :=
  length d1 = length d2 /\ forall k, P k -> nth k d1 0%Z = nth k d2 0%Z.


(** The four buffer indices of pixel [(px, py)]. *)
Definition pixelAt (width px py k : nat) : Prop :=
  exists c, (c < 4)%nat /\ k = ((py * width + px) * 4 + c)%nat.

(** The buffer indices of the block of the cell at [(x, y)], clipped to the
    image. *)
Definition cellAt (width height r x y k : nat) : Prop :=
  exists dx dy, (dx < r)%nat /\ (dy < r)%nat
                /\ (x + dx < width)%nat /\ (y + dy < height)%nat
                /\ pixelAt width (x + dx) (y + dy) k.

(** The buffer indices of the image. *)
Definition imageAt (width height k : nat) : Prop :=
  exists px py, (px < width)%nat /\ (py < height)%nat /\ pixelAt width px py k.

(** Two pixels that store the same four bytes. *)
Definition sameBytes (c1 c2 : Pixel) : Prop :=
  JS.toUint8 (px_r c1) = JS.toUint8 (px_r c2)
  /\ JS.toUint8 (px_g c1) = JS.toUint8 (px_g c2)
  /\ JS.toUint8 (px_b c1) = JS.toUint8 (px_b c2)
  /\ JS.toUint8 (px_a c1) = JS.toUint8 (px_a c2).

(** A number that is an integer unless it is [NaN] or infinite. *)
Definition intish (a : num) : Prop :=
  (exists z, a = Fin (IZR z)) \/ ~ JS.is_fin a.

(** A table channel [ic] next to the background channel [bg]. *)
Definition channelOK (ic bg : num) : Prop :=
  intish ic /\ (JS.is_fin bg \/ ic = bg).

Definition entryOK (entry bg : Entry) : Prop :=
  let '(e0, e1, e2) := entry in
  let '(b0, b1, b2) := bg in
  channelOK e0 b0 /\ channelOK e1 b1 /\ channelOK e2 b2.



(** The exponent is omitted or positive. *)
Definition expOmittedOrPositive (e : option R) : Prop :=
  match e with
  | None => True
  | Some x => 0 < x
  end.

(** A one-pixel image over [bounds_0_10], with the gradient
    [halfGradient]: [max] is 0 and every other option is supplied or
    defaulted. *)
Definition tinyOptionsMaxZero : Options.t :=
  {| Options.width := 1; Options.height := 1; Options.cellSize := Some 1%nat;
     Options.max := Some 0; Options.gradient := halfGradient;
     Options.bounds := bounds_0_10; Options.exp := None |}.

(** The same image with [max = 100]. *)
Definition tinyOptions : Options.t :=
  {| Options.width := 1; Options.height := 1; Options.cellSize := Some 1%nat;
     Options.max := Some 100; Options.gradient := halfGradient;
     Options.bounds := bounds_0_10; Options.exp := None |}.

(** One sample, at the centre of the only cell of [tinyOptions]. *)
Definition tinyCentre : LatLng := DirectDraw.cellCentre 1 1 1 0 0 bounds_0_10.

Definition tinyPoints : list Point :=
  [ {| pt_lat := lat tinyCentre; pt_lng := lng tinyCentre; pt_val := 5 |} ].

(** The real weight [1 / dist2] of a sample point for the cell at [latlng]. *)
Definition pointWeight (latlng : LatLng) (e : R) (p : Point) : R :=
  termWeight (distTo latlng p) e.


(** The local [t] of the table loop, and the test of its [findIndex]. *)
Definition tableParam (i : nat) : R := INR i / 255.

Definition atOrAbove (t s : R) : bool := if Rle_dec t s then true else false.

(** A bounding box that is symmetric about the origin. *)
Definition symmetricBounds : Bounds :=
  {| minLat := -10; minLng := -10; maxLat := 10; maxLng := 10 |}.

(* ===================================================================== *)
(** ** Further vocabulary for the properties below *)
(* ===================================================================== *)

(** The table entry that holds exactly the colour [c]. *)
Definition entryOfColor (c : Rgb) : Entry :=
  (Fin (IZR (rgb_r c)), Fin (IZR (rgb_g c)), Fin (IZR (rgb_b c))).

(** A colour as [tinycolor] returns it: components in [0, 255]. *)
Definition colorInRange (c : Rgb) : Prop :=
  (0 <= rgb_r c <= 255)%Z /\ (0 <= rgb_g c <= 255)%Z /\ (0 <= rgb_b c <= 255)%Z.

(** A number that is an integer in [0, 255]. *)
Definition byteValued (a : num) : Prop :=
  exists z, a = Fin (IZR z) /\ (0 <= z <= 255)%Z.

(** A number that is a finite integer. *)
Definition integerValued (a : num) : Prop := exists z, a = Fin (IZR z).

Definition entryAll (P : num -> Prop) (entry : Entry) : Prop :=
  let '(e0, e1, e2) := entry in P e0 /\ P e1 /\ P e2.

(** The gradient [{0.3: c}] with a single stop. *)
Definition greyGradient : Gradient := [(3 / 10, mkRgb 128 128 128)].

(** The gradient [{0: "#000000", 1: "#ffffff"}]. *)
Definition fullGradient : Gradient := [(0, black); (1, white)].

(** Three samples of one value. *)
Definition equalPoints : list Point :=
  [ {| pt_lat := 1; pt_lng := 1; pt_val := 7 |};
    {| pt_lat := 2; pt_lng := 3; pt_val := 7 |};
    {| pt_lat := 5; pt_lng := 8; pt_val := 7 |} ].

(** A table whose 256 entries are all black. *)
Definition blackTable : list Entry := repeat (Fin 0, Fin 0, Fin 0) 256.

(** One sample on the equator, two degrees of longitude (about 222 km) east
    of the origin. *)
Definition farPoints : list Point :=
  [ {| pt_lat := 0; pt_lng := 2; pt_val := 5 |} ].

(** [tinyOptions] with the gradient [fullGradient]. *)
Definition fullOptions : Options.t :=
  {| Options.width := 1; Options.height := 1; Options.cellSize := Some 1%nat;
     Options.max := Some 100; Options.gradient := fullGradient;
     Options.bounds := bounds_0_10; Options.exp := None |}.

(* ===================================================================== *)
(** ** What a buffer holds *)
(* ===================================================================== *)

(** The byte stored for channel [ch] (0 red, 1 green, 2 blue, 3 alpha) of a
    pixel. *)
Definition channelByte (c : Pixel) (ch : nat) : Z :=
  match ch with
  | 0%nat => JS.toUint8 (px_r c)
  | 1%nat => JS.toUint8 (px_g c)
  | 2%nat => JS.toUint8 (px_b c)
  | _ => JS.toUint8 (px_a c)
  end.

(** The buffer [d] holds the byte [f k] at every index [k] of [P]. *)
Definition holdsOn (f : nat -> Z) (P : nat -> Prop) (d : list Z) : Prop :=
  forall k, P k -> (k < length d)%nat -> nth k d 0%Z = f k.

(** The byte at buffer index [k] of an image whose pixel [(px, py)] is
    [pix px py]. *)
Definition expectedByte (width : nat) (pix : nat -> nat -> Pixel) (k : nat) : Z :=
  channelByte (pix ((k / 4) mod width) ((k / 4) / width))%nat (k mod 4)%nat.

(** The pixel of an outcome; a pixel of [NaN]s when there is none. *)
Definition pixelOr (o : outcome Pixel) : Pixel :=
  match o with
  | Returned c => c
  | _ => {| px_r := NaN; px_g := NaN; px_b := NaN; px_a := NaN |}
  end.

(** The pixel expected at [(px, py)] when the cell [(i, j)] has the colour
    [colour i j]. *)
Definition cellPixelOf (r : nat) (colour : nat -> nat -> outcome Pixel)
  (px py : nat) : Pixel :=
  pixelOr (colour (py / r) (px / r))%nat.

(** The common shape of the body of the two cell loops. *)
Definition cellBody (width height r : nat) (colour : nat -> nat -> outcome Pixel)
  (i j : nat) (d : list Z) : outcome (list Z) :=
  c <- colour i j ;; Returned (fillCell width height r (j * r) (i * r) c d).

(** A 3x2 image in cells of 2 pixels. *)
Definition smallOptions : Options.t :=
  {| Options.width := 3; Options.height := 2; Options.cellSize := Some 2%nat;
     Options.max := Some 100; Options.gradient := fullGradient;
     Options.bounds := bounds_0_10; Options.exp := None |}.

Definition smallFresh : list Z := repeat 0%Z 24.

(** Two samples inside [bounds_0_10]. *)
Definition twoSamples : list Point :=
  [ {| pt_lat := 2; pt_lng := 3; pt_val := 40 |};
    {| pt_lat := 7; pt_lng := 8; pt_val := 90 |} ].

(** [Buffer.alloc]: a zero-filled buffer. *)
Definition zeroFilled (n : nat) : list Z := repeat 0%Z n.

(** A request body over [smallOptions], with the given points and cell
    size. *)
Definition smallBody (points : list Point) (cellSize : option nat)
  : Server.Body :=
  Server.mkBody (Some points) (Some 3%nat) (Some 2%nat) cellSize (Some 100)
    (Some fullGradient) (Some bounds_0_10) None.

(* ===================================================================== *)
(** ** Geo-projection: which edge is which *)
(* ===================================================================== *)

Section Projection.

Lemma merc_angle_range (l : R) :
  -90 < l < 90 -> 0 < PI / 4 + ((l * PI) / 180) / 2 < PI / 2.
Proof.
  intros [Hlo Hhi]. pose proof PI_RGT_0 as Hpi. split; nra.
Qed.

(** The inverse Mercator undoes the Mercator, away from the poles. *)
Lemma mercToLat_latToMerc (l : R) :
  -90 < l < 90 -> mercToLat (latToMerc l) = l.
Proof.
  intros Hl. unfold mercToLat, latToMerc.
  destruct (merc_angle_range l Hl) as [Ha0 Ha1].
  pose proof PI_RGT_0 as Hpi.
  rewrite exp_ln by (apply tan_gt_0; assumption).
  rewrite atan_tan by (split; lra).
  field. lra.
Qed.

(** The Mercator Y grows strictly with the latitude. *)
Lemma latToMerc_increasing (l1 l2 : R) :
  -90 < l1 -> l1 < l2 -> l2 < 90 -> latToMerc l1 < latToMerc l2.
Proof.
  intros H1 H12 H2. unfold latToMerc.
  destruct (merc_angle_range l1 ltac:(lra)) as [Ha0 Ha1].
  destruct (merc_angle_range l2 ltac:(lra)) as [Hb0 Hb1].
  pose proof PI_RGT_0 as Hpi.
  apply ln_increasing.
  - apply tan_gt_0; assumption.
  - apply tan_increasing; nra.
Qed.

Lemma pixelMercY_top (height : R) (bounds : Bounds) :
  pixelMercY 0 height bounds = latToMerc (minLat bounds).
Proof. unfold pixelMercY, Rdiv. ring. Qed.

Lemma pixelMercY_bottom (height : R) (bounds : Bounds) :
  height <> 0 -> pixelMercY height height bounds = latToMerc (maxLat bounds).
Proof. intros Hh. unfold pixelMercY. field. assumption. Qed.

(** The Mercator Y is odd in the latitude. *)
Lemma latToMerc_opp (l : R) :
  -90 < l < 90 -> latToMerc (- l) = - latToMerc l.
Proof.
  intros Hl. unfold latToMerc.
  destruct (merc_angle_range l Hl) as [Ha0 Ha1].
  set (a := PI / 4 + l * PI / 180 / 2) in *.
  replace (PI / 4 + - l * PI / 180 / 2) with (PI / 2 - a) by (unfold a; field).
  assert (Hs : 0 < sin a) by (apply sin_gt_0; lra).
  assert (Hc : 0 < cos a) by (apply cos_gt_0; lra).
  replace (tan (PI / 2 - a)) with (/ tan a).
  - apply ln_Rinv. apply tan_gt_0; assumption.
  - unfold tan. rewrite sin_shift, cos_shift. field. split; lra.
Qed.

(** The origin is the centre of the only cell of a one-pixel image over
    [symmetricBounds]. *)
Lemma origin_is_cell_centre :
  DirectDraw.cellCentre 1 1 1 0 0 symmetricBounds = origin.
Proof.
  unfold DirectDraw.cellCentre, pixelToLatLng, pixelMercY, symmetricBounds, origin.
  cbn [minLat maxLat minLng maxLng INR].
  replace (-10) with (- (10)) by lra.
  rewrite (latToMerc_opp 10) by lra.
  f_equal.
  - replace (- latToMerc 10 + (0 + 1 / 2) / 1 * (latToMerc 10 - - latToMerc 10))
      with 0 by field.
    unfold mercToLat. rewrite exp_0, atan_1. field.
    pose proof PI_RGT_0. lra.
  - field.
Qed.

End Projection.

(** C1 (what the code does): for every image height and every bounding box
    with [-90 < minLat < maxLat < 90], [pixelToLatLng] maps the row [y = 0]
    to the Mercator Y of [minLat], which differs from that of [maxLat], and
    to the latitude [minLat]; it maps [y = height] to [maxLat].  The top row
    of the image is the southern edge. *)
Theorem pixelToLatLng_top_row_is_minLat
  (x width height : R) (bounds : Bounds) :
  height <> 0 ->
  -90 < minLat bounds -> minLat bounds < maxLat bounds -> maxLat bounds < 90 ->
  pixelMercY 0 height bounds = latToMerc (minLat bounds)
  /\ pixelMercY 0 height bounds <> latToMerc (maxLat bounds)
  /\ lat (pixelToLatLng x 0 width height bounds) = minLat bounds
  /\ lat (pixelToLatLng x height width height bounds) = maxLat bounds.
Proof.
  intros Hh Hlo Hlt Hhi.
  pose proof (latToMerc_increasing _ _ Hlo Hlt Hhi) as Hinc.
  repeat split.
  - apply pixelMercY_top.
  - rewrite pixelMercY_top. lra.
  - unfold pixelToLatLng; simpl. rewrite pixelMercY_top.
    apply mercToLat_latToMerc. lra.
  - unfold pixelToLatLng; simpl. rewrite pixelMercY_bottom by assumption.
    apply mercToLat_latToMerc. lra.
Qed.

Lemma pixelToLatLng_top_row_is_minLat_witness :
  lat (pixelToLatLng 0 0 100 100 bounds_0_10) = 0
  /\ lat (pixelToLatLng 0 0 100 100 bounds_0_10) <> maxLat bounds_0_10.
Proof.
  destruct (pixelToLatLng_top_row_is_minLat 0 100 100 bounds_0_10)
    as (_ & _ & Htop & _); simpl; try lra.
  simpl in Htop. rewrite Htop. split; lra.
Defined.

(* ===================================================================== *)
(** ** Distances and weights *)
(* ===================================================================== *)

Section Distance.

Lemma atan_nonneg (x : R) : 0 <= x -> 0 <= atan x.
Proof.
  intros [Hx | <-].
  - left. rewrite <- atan_0. apply atan_increasing. assumption.
  - rewrite atan_0. lra.
Qed.

Lemma atan2_nonneg (y x : R) : 0 <= y -> 0 <= x -> 0 <= atan2 y x.
Proof.
  intros Hy Hx. unfold atan2. pose proof PI_RGT_0 as Hpi.
  destruct (Rlt_dec 0 x) as [Hpos | Hnpos].
  - apply atan_nonneg. apply Rmult_le_pos; [assumption |].
    left. apply Rinv_0_lt_compat. assumption.
  - destruct (Rlt_dec x 0); [lra |].
    destruct (Rlt_dec 0 y); [lra |].
    destruct (Rlt_dec y 0); lra.
Qed.

Lemma haversine_nonneg (a b : LatLng) : 0 <= haversine a b.
Proof.
  unfold haversine.
  set (aVal := _ + _).
  pose proof (atan2_nonneg (sqrt aVal) (sqrt (1 - aVal))
                (sqrt_pos _) (sqrt_pos _)).
  nra.
Qed.

Lemma atan2_0_1 : atan2 0 1 = 0.
Proof.
  unfold atan2. destruct (Rlt_dec 0 1); [| lra].
  replace (0 / 1) with 0 by field. apply atan_0.
Qed.

(** Coincident points are at distance zero. *)
Lemma haversine_same (a : LatLng) : haversine a a = 0.
Proof.
  unfold haversine, toRad.
  replace (lat a - lat a) with 0 by ring.
  replace (lng a - lng a) with 0 by ring.
  replace (0 * PI / 180 / 2) with 0 by field.
  rewrite sin_0.
  replace (0 ^ 2 + cos (lat a * PI / 180) * cos (lat a * PI / 180) * 0 ^ 2)
    with 0 by ring.
  replace (1 - 0) with 1 by ring.
  rewrite sqrt_0, sqrt_1, atan2_0_1. ring.
Qed.

Lemma distTo_nonneg (latlng : LatLng) (pt : Point) : 0 <= distTo latlng pt.
Proof. apply haversine_nonneg. Qed.

(** Along the equator the distance is the arc length. *)
Lemma haversine_equator (L : R) :
  0 <= L < 180 ->
  haversine origin {| lat := 0; lng := L |} = 6371000 * (L * PI / 180).
Proof.
  intros [HL0 HL1]. unfold haversine, toRad, origin; cbn [lat lng].
  pose proof PI_RGT_0 as Hpi.
  replace (0 - 0) with 0 by ring.
  replace (0 * PI / 180) with 0 by field.
  replace (0 / 2) with 0 by field.
  rewrite sin_0, cos_0.
  replace (L - 0) with L by ring.
  set (h := L * PI / 180 / 2).
  assert (Hh : 0 <= h < PI / 2) by (unfold h; split; nra).
  assert (Hs : 0 <= sin h) by (apply sin_ge_0; lra).
  assert (Hc : 0 < cos h) by (apply cos_gt_0; lra).
  replace (0 ^ 2 + 1 * 1 * sin h ^ 2) with (Rsqr (sin h)) by (unfold Rsqr; ring).
  replace (1 - Rsqr (sin h)) with (Rsqr (cos h))
    by (pose proof (sin2_cos2 h); lra).
  rewrite sqrt_Rsqr by assumption.
  rewrite sqrt_Rsqr by lra.
  unfold atan2. destruct (Rlt_dec 0 (cos h)); [| lra].
  change (sin h / cos h) with (tan h).
  rewrite atan_tan by lra.
  unfold h. field.
Qed.

End Distance.

Section Weights.

Lemma EPS_pos : 0 < EPS.
Proof. unfold EPS. lra. Qed.

Lemma Rpower_pos (x y : R) : 0 < Rpower x y.
Proof. unfold Rpower. apply exp_pos. Qed.

(** [dist2] of a distance is a positive number, or [Infinity] at distance
    zero under a negative exponent. *)
Lemma dist2_cases (d e : R) :
  0 <= d ->
  (exists p, 0 < p /\ dist2 d e = Fin p)
  \/ (d = 0 /\ e < 0 /\ dist2 d e = PInf).
Proof.
  intros Hd. unfold dist2, JS.or, JS.pow.
  destruct (Req_dec_T e 0) as [He | He].
  - left. exists 1. split; [lra |]. simpl.
    destruct (Req_dec_T 1 0); [lra | reflexivity].
  - destruct (Rlt_dec 0 d) as [Hpos | Hnpos].
    + left. exists (Rpower d e). pose proof (Rpower_pos d e). split; [assumption |].
      simpl. destruct (Req_dec_T (Rpower d e) 0); [lra | reflexivity].
    + destruct (Req_dec_T d 0) as [Hz | Hnz]; [| lra].
      destruct (Rlt_dec 0 e) as [Hepos | Heneg].
      * left. exists EPS. split; [apply EPS_pos |]. simpl.
        destruct (Req_dec_T 0 0); [reflexivity | lra].
      * right. repeat split; try lra. 
Qed.



Lemma termWeight_nonneg (d e : R) : 0 <= d -> 0 <= termWeight d e.
Proof.
  intros Hd. unfold termWeight.
  destruct (dist2_cases d e Hd) as [(p & Hp & ->) | (_ & _ & ->)]; [| lra].
  left. apply Rdiv_lt_0_compat; lra.
Qed.

Lemma termWeight_pos (d e : R) :
  0 <= d -> 0 <= e \/ d <> 0 -> 0 < termWeight d e.
Proof.
  intros Hd Hor. unfold termWeight.
  destruct (dist2_cases d e Hd) as [(p & Hp & ->) | (Hd0 & He & _)].
  - apply Rdiv_lt_0_compat; lra.
  - destruct Hor; lra.
Qed.


(** The two quotients of the loop body, as real numbers. *)
Lemma div_dist2 (v d e : R) :
  0 <= d -> JS.div (Fin v) (dist2 d e) = Fin (v * termWeight d e).
Proof.
  intros Hd. unfold termWeight.
  destruct (dist2_cases d e Hd) as [(p & Hp & ->) | (_ & _ & ->)]; simpl.
  - destruct (Req_dec_T p 0); [lra |]. f_equal. field. lra.
  - f_equal. ring.
Qed.

End Weights.

(* ===================================================================== *)
(** ** Rounding, bytes and table access *)
(* ===================================================================== *)

Section Rounding.

Lemma inf_signed_pos (x : R) : 0 < x -> JS.inf_signed x = PInf.
Proof. intros H. unfold JS.inf_signed. destruct (Rlt_dec 0 x); [reflexivity | lra]. Qed.

Lemma inf_signed_neg (x : R) : x < 0 -> JS.inf_signed x = NInf.
Proof.
  intros H. unfold JS.inf_signed.
  destruct (Rlt_dec 0 x); [lra |]. destruct (Rlt_dec x 0); [reflexivity | lra].
Qed.

Lemma inf_signed_zero (x : R) : x = 0 -> JS.inf_signed x = NaN.
Proof.
  intros H. unfold JS.inf_signed.
  destruct (Rlt_dec 0 x); [lra |]. destruct (Rlt_dec x 0); [lra | reflexivity].
Qed.

Lemma round_eq (z : Z) (x : R) :
  IZR z <= x + 1 / 2 < IZR z + 1 -> JS.round (Fin x) = Fin (IZR z).
Proof. intros H. simpl. rewrite (Zfloor_eq z) by assumption. reflexivity. Qed.

Lemma round_int (z : Z) : JS.round (Fin (IZR z)) = Fin (IZR z).
Proof. apply round_eq. lra. Qed.

Lemma round_fin_or_same (a : num) :
  (exists z, JS.round a = Fin (IZR z)) \/ (JS.round a = a /\ ~ JS.is_fin a).
Proof.
  destruct a as [x | | |]; simpl; [left; eexists; reflexivity | | |];
    right; split; auto.
Qed.

Lemma trunc_int (z : Z) : JS.trunc (IZR z) = z.
Proof.
  unfold JS.trunc. destruct (Rle_dec 0 (IZR z)).
  - apply ZfloorZ.
  - unfold Zceil. rewrite ZfloorNZ. lia.
Qed.

Lemma toUint8_int (z : Z) : JS.toUint8 (Fin (IZR z)) = (z mod 256)%Z.
Proof. simpl. rewrite trunc_int. reflexivity. Qed.

Lemma tableGet_int (grad : list Entry) (z : Z) :
  tableGet grad (Fin (IZR z)) = index grad z.
Proof.
  simpl. rewrite ZfloorZ.
  destruct (Req_dec_T (IZR z) (IZR z)); [reflexivity | congruence].
Qed.

Lemma index_in_range {A : Type} (l : list A) (z : Z) :
  (0 <= z < Z.of_nat (length l))%Z -> exists a, index l z = Some a.
Proof.
  intros Hz. unfold index.
  destruct (z <? 0)%Z eqn:E; [lia |].
  destruct (nth_error l (Z.to_nat z)) eqn:En; [eexists; reflexivity |].
  apply nth_error_None in En. lia.
Qed.

Lemma index_negative {A : Type} (l : list A) (z : Z) :
  (z < 0)%Z -> index l z = None.
Proof. intros Hz. unfold index. destruct (z <? 0)%Z eqn:E; [reflexivity | lia]. Qed.

End Rounding.

(* ===================================================================== *)
(** ** The model on small inputs *)
(* ===================================================================== *)

Section SmallInputs.

Example div_zero_by_zero : JS.div (Fin 0) (Fin 0) = NaN.
Proof.
  simpl. destruct (Req_dec_T 0 0); [| lra]. apply inf_signed_zero. reflexivity.
Qed.

Example div_by_infinity : JS.div (Fin 5) PInf = Fin 0.
Proof. reflexivity. Qed.

Example pow_zero_negative : JS.pow 0 (-1) = PInf.
Proof.
  unfold JS.pow.
  destruct (Req_dec_T (-1) 0); [lra |].
  destruct (Rlt_dec 0 0); [lra |].
  destruct (Req_dec_T 0 0); [| lra].
  destruct (Rlt_dec 0 (-1)); [lra | reflexivity].
Qed.

Example dist2_at_zero_distance : dist2 0 2 = Fin EPS.
Proof.
  unfold dist2, JS.or, JS.pow.
  destruct (Req_dec_T 2 0); [lra |].
  destruct (Rlt_dec 0 0); [lra |].
  destruct (Req_dec_T 0 0); [| lra].
  destruct (Rlt_dec 0 2); [| lra]. simpl.
  destruct (Req_dec_T 0 0); [reflexivity | lra].
Qed.

Example dist2_infinity_is_truthy : dist2 0 (-1) = PInf.
Proof. unfold dist2. rewrite pow_zero_negative. reflexivity. Qed.

Example round_half_up : JS.round (Fin (5 / 2)) = Fin 3.
Proof. apply (round_eq 3). lra. Qed.

Example round_negative_half_up : JS.round (Fin (- (5 / 2))) = Fin (-2).
Proof. apply (round_eq (-2)). lra. Qed.

Example toUint8_wraps : JS.toUint8 (Fin 510) = 254%Z.
Proof. rewrite (toUint8_int 510). reflexivity. Qed.

Example toUint8_negative : JS.toUint8 (Fin (-1)) = 255%Z.
Proof. rewrite (toUint8_int (-1)). reflexivity. Qed.

Example stepRange_10_4 : stepRange 10 4 = [0; 4; 8]%nat.
Proof. reflexivity. Qed.

Example ceilDiv_10_4 : ceilDiv 10 4 = 3%nat.
Proof. reflexivity. Qed.

Example findIndex_second :
  findIndex (fun n => (3 <=? n)%nat) [1; 5; 2; 7]%nat = 1%Z.
Proof. reflexivity. Qed.

Example findIndex_absent :
  findIndex (fun n => (9 <=? n)%nat) [1; 5; 2; 7]%nat = (-1)%Z.
Proof. reflexivity. Qed.

Example write_inside : write [1; 2; 3]%Z 1 9%Z = [1; 9; 3]%Z.
Proof. reflexivity. Qed.

Example write_outside : write [1; 2; 3]%Z 3 9%Z = [1; 2; 3]%Z.
Proof. reflexivity. Qed.

End SmallInputs.

(* ===================================================================== *)
(** ** The IDW sum in closed form *)
(* ===================================================================== *)

Section Accumulation.

Variable latlng : LatLng.
Variable e : R.


Lemma sumOver_ext (f g : Point -> R) (points : list Point) :
  (forall p, In p points -> f p = g p) -> sumOver f points = sumOver g points.
Proof.
  induction points as [| p points IH]; intros Hfg; simpl; [reflexivity |].
  rewrite (Hfg p) by (left; reflexivity).
  rewrite IH; [reflexivity |]. intros q Hq. apply Hfg. right. assumption.
Qed.

Lemma sumOver_nonneg (f : Point -> R) (points : list Point) :
  (forall p, In p points -> 0 <= f p) -> 0 <= sumOver f points.
Proof.
  induction points as [| p points IH]; intros Hf; simpl; [lra |].
  pose proof (Hf p (or_introl eq_refl)).
  assert (0 <= sumOver f points) by (apply IH; intros q Hq; apply Hf; right; assumption).
  lra.
Qed.

Lemma sumOver_pos (f : Point -> R) (points : list Point) :
  (forall p, In p points -> 0 <= f p) ->
  (exists p, In p points /\ 0 < f p) ->
  0 < sumOver f points.
Proof.
  induction points as [| p points IH]; intros Hf (q & Hq & Hpos); simpl.
  - destruct Hq.
  - pose proof (Hf p (or_introl eq_refl)) as Hp.
    assert (Hrest : 0 <= sumOver f points)
      by (apply sumOver_nonneg; intros r Hr; apply Hf; right; assumption).
    destruct Hq as [-> | Hq]; [lra |].
    assert (0 < sumOver f points).
    { apply IH; [intros r Hr; apply Hf; right; assumption |].
      exists q. split; assumption. }
    lra.
Qed.

(** A weighted sum lies between the bounds of the values times the total
    weight. *)
Lemma weighted_sum_bounds (w : Point -> R) (lo hi : R) (points : list Point) :
  (forall p, In p points -> 0 <= w p) ->
  (forall p, In p points -> lo <= pt_val p <= hi) ->
  lo * sumOver w points <= sumOver (fun p => pt_val p * w p) points
                        <= hi * sumOver w points.
Proof.
  induction points as [| p points IH]; intros Hw Hv; simpl; [lra |].
  pose proof (Hw p (or_introl eq_refl)) as Hwp.
  pose proof (Hv p (or_introl eq_refl)) as Hvp.
  destruct IH as [IHlo IHhi].
  - intros q Hq. apply Hw. right. assumption.
  - intros q Hq. apply Hv. right. assumption.
  - split; nra.
Qed.

(** The loop over the points computes the two sums and the running
    minimum. *)
Lemma accumulate_fold (points : list Point) (n d : R) (m : num) :
  fold_left (accumulate latlng e) points
    {| numerator := Fin n; denominator := Fin d; minDist := m |}
  = {| numerator := Fin (n + sumOver (fun p => pt_val p * pointWeight latlng e p) points);
       denominator := Fin (d + sumOver (pointWeight latlng e) points);
       minDist :=
         fold_left (fun m p => JS.min m (Fin (distTo latlng p))) points m |}.
Proof.
  revert n d m.
  induction points as [| p points IH]; intros n d m; simpl.
  - f_equal; f_equal; ring.
  - unfold accumulate at 2. cbn [numerator denominator minDist].
    fold (distTo latlng p).
    rewrite !div_dist2 by apply distTo_nonneg.
    cbn [JS.add]. rewrite IH. unfold pointWeight.
    f_equal; f_equal; ring.
Qed.

Lemma cellValue_sums (points : list Point) :
  cellValue latlng e points
  = JS.div (Fin (0 + sumOver (fun p => pt_val p * pointWeight latlng e p) points))
           (Fin (0 + sumOver (pointWeight latlng e) points)).
Proof.
  unfold cellValue, accumulateAll, accInit.
  rewrite accumulate_fold. reflexivity.
Qed.

Lemma cellValue_quotient (points : list Point) :
  0 < sumOver (pointWeight latlng e) points ->
  cellValue latlng e points
  = Fin (sumOver (fun p => pt_val p * pointWeight latlng e p) points / sumOver (pointWeight latlng e) points).
Proof.
  intros Hpos. rewrite cellValue_sums. simpl.
  destruct (Req_dec_T (0 + sumOver (pointWeight latlng e) points) 0); [lra |].
  f_equal. field. lra.
Qed.

Lemma pointWeight_nonneg (p : Point) : 0 <= pointWeight latlng e p.
Proof. apply termWeight_nonneg, distTo_nonneg. Qed.

Lemma total_weight_pos (points : list Point) :
  points <> [] ->
  0 <= e \/ (exists p, In p points /\ distTo latlng p <> 0) ->
  0 < sumOver (pointWeight latlng e) points.
Proof.
  intros Hne Hor. apply sumOver_pos.
  - intros p _. apply pointWeight_nonneg.
  - destruct Hor as [He | (p & Hp & Hd)].
    + destruct points as [| p points]; [congruence |].
      exists p. split; [left; reflexivity |].
      apply termWeight_pos; [apply distTo_nonneg | left; assumption].
    + exists p. split; [assumption |].
      apply termWeight_pos; [apply distTo_nonneg | right; assumption].
Qed.

Lemma minValue_le (points : list Point) (p : Point) :
  In p points -> minValue points <= pt_val p.
Proof.
  unfold minValue. generalize (match points with [] => 0 | q :: _ => pt_val q end).
  induction points as [| q points IH]; intros r0 Hin; simpl; [destruct Hin |].
  destruct Hin as [-> | Hin].
  - apply Rmin_l.
  - eapply Rle_trans; [apply Rmin_r | apply IH; assumption].
Qed.

Lemma maxValue_ge (points : list Point) (p : Point) :
  In p points -> pt_val p <= maxValue points.
Proof.
  unfold maxValue. generalize (match points with [] => 0 | q :: _ => pt_val q end).
  induction points as [| q points IH]; intros r0 Hin; simpl; [destruct Hin |].
  destruct Hin as [-> | Hin].
  - apply Rmax_l.
  - eapply Rle_trans; [apply IH; eassumption | apply Rmax_r].
Qed.

End Accumulation.

(* ===================================================================== *)
(** ** Interpolated value of a cell *)
(* ===================================================================== *)





Section NearPoints.






End NearPoints.









(* ===================================================================== *)
(** ** Gradient index and feathering of a cell *)
(* ===================================================================== *)

Section GradientIndex.

Import DirectDraw.

Lemma gradientIndex_max_zero (v : num) :
  gradientIndex (clampToMax v 0) 0 = Fin 0.
Proof.
  unfold gradientIndex. simpl. destruct (Req_dec_T 0 0); [reflexivity | lra].
Qed.

Lemma gradientIndex_fin (x max : R) :
  max <> 0 ->
  gradientIndex (clampToMax (Fin x) max) max
  = Fin (IZR (Zfloor (Rmin x max / max * 255 + 1 / 2))).
Proof.
  intros Hm. unfold gradientIndex, clampToMax. simpl.
  destruct (Req_dec_T max 0); [contradiction | reflexivity].
Qed.

Lemma scaled_ratio_range (x max : R) :
  0 < max -> 0 <= x -> 0 <= Rmin x max / max * 255 <= 255.
Proof.
  intros Hm Hx.
  assert (H0 : 0 <= Rmin x max) by (apply Rmin_glb; lra).
  assert (H1 : Rmin x max <= max) by apply Rmin_r.
  assert (Hq : 0 <= Rmin x max / max <= 1).
  { split.
    - apply Rmult_le_pos; [assumption | left; apply Rinv_0_lt_compat; assumption].
    - apply Rmult_le_reg_r with (r := max); [assumption |].
      unfold Rdiv. rewrite Rmult_assoc, Rinv_l by lra. lra. }
  lra.
Qed.

Lemma gradientIndex_range (x max : R) :
  0 < max -> 0 <= x ->
  exists k : Z,
    gradientIndex (clampToMax (Fin x) max) max = Fin (IZR k) /\ (0 <= k <= 255)%Z.
Proof.
  intros Hm Hx. rewrite gradientIndex_fin by lra.
  eexists. split; [reflexivity |].
  pose proof (scaled_ratio_range x max Hm Hx) as [Hlo Hhi].
  split.
  - apply Zfloor_lub. simpl. lra.
  - pose proof (Zfloor_bound (Rmin x max / max * 255 + 1 / 2)) as [Hb _].
    assert (IZR (Zfloor (Rmin x max / max * 255 + 1 / 2)) < IZR 256)
      by (simpl; lra).
    apply lt_IZR in H. lia.
Qed.

(** With a positive [max], an exponent [>= 0] and no negative sample the
    index of a cell is inside a 256-entry table. *)
Lemma cell_index_in_table
  (latlng : LatLng) (e max : R) (points : list Point) (grad : list Entry) :
  length grad = 256%nat ->
  0 < max -> 0 <= e -> points <> [] ->
  (forall p, In p points -> 0 <= pt_val p) ->
  exists (k : Z) (entry : Entry),
    gradientIndex (clampToMax (cellValue latlng e points) max) max = Fin (IZR k)
    /\ (0 <= k <= 255)%Z
    /\ tableGet grad (Fin (IZR k)) = Some entry.
Proof.
  intros Hlen Hm He Hne Hvals.
  assert (Hor : 0 <= e \/ (exists p, In p points /\ distTo latlng p <> 0))
    by (left; assumption).
  pose proof (total_weight_pos latlng e points Hne Hor) as Hpos.
  rewrite cellValue_quotient by assumption.
  set (w := pointWeight latlng e) in *.
  destruct (weighted_sum_bounds w 0 (maxValue points) points) as [Hlo _].
  { intros p _. apply termWeight_nonneg, distTo_nonneg. }
  { intros p Hp. split; [apply Hvals | apply maxValue_ge]; assumption. }
  assert (Hv : 0 <= sumOver (fun p => pt_val p * w p) points / sumOver w points).
  { apply Rmult_le_pos; [lra | left; apply Rinv_0_lt_compat; assumption]. }
  destruct (gradientIndex_range _ max Hm Hv) as (k & Hk & Hrange).
  destruct (index_in_range grad k) as [entry Hentry]; [rewrite Hlen; lia |].
  exists k, entry. repeat split; try assumption; try lia.
  rewrite tableGet_int. assumption.
Qed.

End GradientIndex.




(** C6 (as amended): the fade distance is the constant 100000 of the source,
    not a configured value.  With it, [alpha] is 1 when [minDist] is at most
    100000 and [max(0, 1 - (minDist - 100000)/100000)] otherwise; [alpha]
    lies in [0, 1] and does not increase when [minDist] grows. *)
Theorem featherAlpha_fixed_distance (m1 m2 : R) :
  m1 <= m2 ->
  DirectDraw.FADE_DISTANCE = 100000
  /\ DirectDraw.featherAlpha (Fin m1) = Fin (specAlpha 100000 m1)
  /\ DirectDraw.featherAlpha (Fin m2) = Fin (specAlpha 100000 m2)
  /\ (m1 <= 100000 -> specAlpha 100000 m1 = 1)
  /\ (100000 < m1 ->
      specAlpha 100000 m1 = Rmax 0 (1 - (m1 - 100000) / 100000))
  /\ 0 <= specAlpha 100000 m2 <= specAlpha 100000 m1
  /\ specAlpha 100000 m1 <= 1.
Proof.
  intros Hle.
  assert (Halpha : forall m,
            DirectDraw.featherAlpha (Fin m) = Fin (specAlpha 100000 m)).
  { intros m. unfold DirectDraw.featherAlpha, DirectDraw.FADE_DISTANCE, specAlpha.
    simpl. destruct (Rlt_dec 100000 m); [| reflexivity].
    destruct (Req_dec_T 100000 0); [lra |].
    simpl. reflexivity. }
  split; [reflexivity |].
  split; [apply Halpha |]. split; [apply Halpha |].
  unfold specAlpha.
  split; [intros H; destruct (Rlt_dec 100000 m1); [lra | reflexivity] |].
  split; [intros H; destruct (Rlt_dec 100000 m1); [reflexivity | lra] |].
  destruct (Rlt_dec 100000 m1), (Rlt_dec 100000 m2); try lra.
  - unfold Rmax.
    destruct (Rle_dec 0 (1 - (m1 - 100000) / 100000)),
             (Rle_dec 0 (1 - (m2 - 100000) / 100000)); lra.
  - unfold Rmax. destruct (Rle_dec 0 (1 - (m2 - 100000) / 100000)); lra.
Qed.

Lemma featherAlpha_fixed_distance_witness :
  DirectDraw.featherAlpha (Fin 150000) = Fin (specAlpha 100000 150000)
  /\ specAlpha 100000 250000 <= specAlpha 100000 150000.
Proof.
  destruct (featherAlpha_fixed_distance 150000 250000 ltac:(lra))
    as (_ & H1 & _ & _ & _ & H2 & _).
  split; [exact H1 | lra].
Defined.

(** C6 (counterexample): for a configured fade distance of 50000 and a cell
    75000 meters from the nearest sample the formula of the claim gives
    [alpha = 1/2], the engine gives [alpha = 1]. *)
Lemma featherAlpha_ignores_configuration :
  specAlpha 50000 75000 = 1 / 2
  /\ DirectDraw.featherAlpha (Fin 75000) = Fin 1
  /\ DirectDraw.featherAlpha (Fin 75000) <> Fin (specAlpha 50000 75000).
Proof.
  assert (Hs : specAlpha 50000 75000 = 1 / 2).
  { unfold specAlpha. destruct (Rlt_dec 50000 75000); [| lra].
    rewrite Rmax_right by lra. lra. }
  assert (Ha : DirectDraw.featherAlpha (Fin 75000) = Fin 1).
  { unfold DirectDraw.featherAlpha, DirectDraw.FADE_DISTANCE. simpl.
    destruct (Rlt_dec 100000 75000); [lra | reflexivity]. }
  repeat split; try assumption.
  rewrite Ha, Hs. intros Heq. injection Heq as Heq. lra.
Qed.

(* ===================================================================== *)
(** ** Loops that may throw *)
(* ===================================================================== *)

Section Loops.

Context {A B : Type}.

Lemma mapM_returned (f : A -> outcome B) (g : A -> B) (l : list A) :
  (forall a, In a l -> f a = Returned (g a)) ->
  mapM f l = Returned (map g l).
Proof.
  induction l as [| a l IH]; intros Hf; simpl; [reflexivity |].
  rewrite (Hf a) by (left; reflexivity). simpl.
  rewrite IH by (intros b Hb; apply Hf; right; assumption).
  reflexivity.
Qed.

Lemma mapM_first_thrown (f : A -> outcome B) (a : A) (l : list A) (e : exn) :
  f a = Thrown e -> mapM f (a :: l) = Thrown e.
Proof. intros H. simpl. rewrite H. reflexivity. Qed.

End Loops.

(* ===================================================================== *)
(** ** The gradient lookup table *)
(* ===================================================================== *)

Section GradientTable.

Lemma nth_error_map_seq {B : Type} (f : nat -> B) (n len : nat) :
  (n < len)%nat -> nth_error (map f (seq 0 len)) n = Some (f n).
Proof.
  intros Hn. rewrite nth_error_map.
  rewrite (nth_error_nth' _ 0%nat) by (rewrite length_seq; assumption).
  rewrite seq_nth by assumption. reflexivity.
Qed.


Lemma insertSorted_length (a : R) (l : list R) :
  length (insertSorted a l) = S (length l).
Proof.
  induction l as [| b l IH]; simpl; [reflexivity |].
  destruct (Rle_dec a b); simpl; [reflexivity | rewrite IH; reflexivity].
Qed.

Lemma sortAscending_length (l : list R) :
  length (sortAscending l) = length l.
Proof.
  induction l as [| a l IH]; simpl; [reflexivity |].
  rewrite insertSorted_length, IH. reflexivity.
Qed.

Lemma findIndex_range {T : Type} (p : T -> bool) (l : list T) :
  findIndex p l = (-1)%Z \/ (0 <= findIndex p l < Z.of_nat (length l))%Z.
Proof.
  induction l as [| a l IH]; simpl; [left; reflexivity |].
  destruct (p a); [right; lia |].
  destruct IH as [-> | IH]; [left; reflexivity |].
  destruct (findIndex p l =? -1)%Z eqn:E; [left; reflexivity | right; lia].
Qed.

Lemma findIndex_none {T : Type} (p : T -> bool) (l : list T) :
  findIndex p l = (-1)%Z <-> (forall a, In a l -> p a = false).
Proof.
  induction l as [| a l IH]; simpl.
  - split; [intros _ a [] | reflexivity].
  - destruct (p a) eqn:Ea.
    + split; [lia |]. intros H. specialize (H a (or_introl eq_refl)). congruence.
    + destruct (findIndex_range p l) as [Hn | Hr].
      * rewrite Hn. simpl. split; [| reflexivity].
        intros _ b [<- | Hb]; [assumption |]. apply IH; assumption.
      * destruct (findIndex p l =? -1)%Z eqn:E; [lia |].
        split; [lia |]. intros H. exfalso.
        assert (findIndex p l = (-1)%Z)
          by (apply IH; intros b Hb; apply H; right; assumption).
        lia.
Qed.

(** At a found index the predicate holds, and it fails just before. *)
Lemma findIndex_found {T : Type} (p : T -> bool) (l : list T) (a : T) :
  (0 <= findIndex p l)%Z ->
  index l (findIndex p l) = Some a -> p a = true.
Proof.
  induction l as [| b l IH]; simpl; [lia |].
  destruct (p b) eqn:Eb.
  - intros _ H. unfold index in H. simpl in H. congruence.
  - destruct (findIndex p l =? -1)%Z eqn:E; [lia |].
    intros _ H. apply IH; [destruct (findIndex_range p l); lia |].
    unfold index in *.
    destruct (findIndex p l + 1 <? 0)%Z eqn:E1; [discriminate |].
    destruct (findIndex p l <? 0)%Z eqn:E2;
      [destruct (findIndex_range p l); lia |].
    replace (Z.to_nat (findIndex p l + 1)) with (S (Z.to_nat (findIndex p l)))
      in H by (destruct (findIndex_range p l); lia).
    exact H.
Qed.

Lemma findIndex_before {T : Type} (p : T -> bool) (l : list T) (a : T) :
  (1 <= findIndex p l)%Z ->
  index l (findIndex p l - 1) = Some a -> p a = false.
Proof.
  induction l as [| b l IH]; simpl; [lia |].
  destruct (p b) eqn:Eb; [lia |].
  destruct (findIndex p l =? -1)%Z eqn:E; [lia |].
  intros Hge H.
  replace (findIndex p l + 1 - 1)%Z with (findIndex p l) in H by lia.
  destruct (Z.eq_dec (findIndex p l) 0) as [H0 | Hn0].
  - rewrite H0 in H. unfold index in H. simpl in H. congruence.
  - apply IH; [destruct (findIndex_range p l); lia |].
    unfold index in *.
    destruct (findIndex p l <? 0)%Z eqn:E1; [discriminate |].
    destruct (findIndex p l - 1 <? 0)%Z eqn:E2;
      [destruct (findIndex_range p l); lia |].
    replace (Z.to_nat (findIndex p l)) with (S (Z.to_nat (findIndex p l - 1)))
      in H by (destruct (findIndex_range p l); lia).
    exact H.
Qed.

Lemma stopIndex_range (stops : list R) (t : R) :
  stops <> [] -> (0 <= stopIndex stops t < Z.of_nat (length stops))%Z.
Proof.
  intros Hne. unfold stopIndex.
  assert (0 < length stops)%nat by (destruct stops; [congruence | simpl; lia]).
  destruct (findIndex_range (fun s => if Rle_dec t s then true else false) stops)
    as [-> | Hr]; simpl; [lia |].
  destruct (_ =? -1)%Z eqn:E; lia.
Qed.

Lemma lookupEntry_returns (stops : list R) (colors : list Rgb) (i : nat) :
  stops <> [] -> length colors = length stops ->
  exists entry, lookupEntry stops colors i = Returned entry.
Proof.
  intros Hne Hlen. unfold lookupEntry.
  fold (stopIndex stops (INR i / 255)).
  pose proof (stopIndex_range stops (INR i / 255) Hne) as Hr.
  set (idx := stopIndex stops (INR i / 255)) in *.
  destruct (idx =? 0)%Z eqn:E0.
  - destruct (index_in_range colors 0) as [c ->]; [lia |].
    eexists; reflexivity.
  - apply Z.eqb_neq in E0.
    destruct (index_in_range stops (idx - 1)) as [s0 ->]; [lia |].
    destruct (index_in_range stops idx) as [s1 ->]; [lia |].
    destruct (index_in_range colors (idx - 1)) as [c0 ->]; [lia |].
    destruct (index_in_range colors idx) as [c1 ->]; [lia |].
    eexists; reflexivity.
Qed.

(** The two branches of the loop body, by the index it settles on. *)
Lemma lookupEntry_first (stops : list R) (colors : list Rgb) (i : nat) (c : Rgb) :
  stopIndex stops (INR i / 255) = 0%Z ->
  index colors 0 = Some c ->
  lookupEntry stops colors i
  = Returned (Fin (IZR (rgb_r c)), Fin (IZR (rgb_g c)), Fin (IZR (rgb_b c))).
Proof.
  intros Hidx Hc. unfold lookupEntry.
  fold (stopIndex stops (INR i / 255)). rewrite Hidx, Hc. reflexivity.
Qed.

Lemma lookupEntry_interpolated (stops : list R) (colors : list Rgb) (i : nat)
  (idx : Z) (s0 s1 : R) (c0 c1 : Rgb) :
  stopIndex stops (INR i / 255) = idx ->
  idx <> 0%Z ->
  index stops (idx - 1) = Some s0 -> index stops idx = Some s1 ->
  index colors (idx - 1) = Some c0 -> index colors idx = Some c1 ->
  lookupEntry stops colors i
  = let f := JS.div (JS.sub (Fin (INR i / 255)) (Fin s0))
                    (JS.sub (Fin s1) (Fin s0)) in
    Returned (mixChannel (rgb_r c0) (rgb_r c1) f,
              mixChannel (rgb_g c0) (rgb_g c1) f,
              mixChannel (rgb_b c0) (rgb_b c1) f).
Proof.
  intros Hidx Hne Hs0 Hs1 Hc0 Hc1. unfold lookupEntry.
  fold (stopIndex stops (INR i / 255)). rewrite Hidx.
  destruct (idx =? 0)%Z eqn:E; [apply Z.eqb_eq in E; contradiction |].
  rewrite Hs0, Hs1, Hc0, Hc1. reflexivity.
Qed.

(** A gradient with at least one stop has a table, of 256 entries. *)
Lemma createGradientLookup_table (gradient : Gradient) :
  gradient <> [] ->
  createGradientLookup gradient
  = Returned (map (entryAt (sortedStops gradient) (stopColors gradient))
                (seq 0 256))
  /\ forall i,
       lookupEntry (sortedStops gradient) (stopColors gradient) i
       = Returned (entryAt (sortedStops gradient) (stopColors gradient) i).
Proof.
  intros Hne.
  set (stops := sortedStops gradient). set (colors := stopColors gradient).
  assert (Hstops : stops <> []).
  { intros H. apply (f_equal (@length R)) in H. unfold stops, sortedStops in H.
    rewrite sortAscending_length in H. rewrite length_map in H.
    destruct gradient; [congruence | discriminate]. }
  assert (Hlen : length colors = length stops)
    by (unfold colors, stopColors; apply length_map).
  assert (Hall : forall i, lookupEntry stops colors i
                           = Returned (entryAt stops colors i)).
  { intros i. unfold entryAt.
    destruct (lookupEntry_returns stops colors i Hstops Hlen) as [entry ->].
    reflexivity. }
  split; [| apply Hall].
  change (createGradientLookup gradient)
    with (mapM (lookupEntry stops colors) (seq 0 256)).
  apply mapM_returned. intros i _. apply Hall.
Qed.

Lemma createGradientLookup_empty : createGradientLookup [] = Thrown TypeError.
Proof.
  unfold createGradientLookup. simpl map. simpl sortAscending.
  change (seq 0 256) with (0%nat :: seq 1 255).
  apply mapM_first_thrown. reflexivity.
Qed.

Lemma createGradientLookup_length (gradient : Gradient) (grad : list Entry) :
  createGradientLookup gradient = Returned grad -> length grad = 256%nat.
Proof.
  intros H.
  assert (Hne : gradient <> []).
  { intros ->. rewrite createGradientLookup_empty in H. discriminate. }
  destruct (createGradientLookup_table gradient Hne) as [Heq _].
  rewrite Heq in H.
  assert (Hg : grad = map (entryAt (sortedStops gradient) (stopColors gradient))
                        (seq 0 256)) by congruence.
  rewrite Hg, length_map, length_seq. reflexivity.
Qed.

End GradientTable.

Section HalfGradient.

Lemma halfGradient_stops : sortedStops halfGradient = [0; 1 / 2].
Proof.
  unfold sortedStops, halfGradient. simpl.
  destruct (Rle_dec 0 (1 / 2)); [reflexivity | lra].
Qed.

Lemma halfGradient_colors : stopColors halfGradient = [black; white].
Proof.
  unfold stopColors. rewrite halfGradient_stops. unfold halfGradient. simpl.
  destruct (Req_dec_T 0 0); [| lra].
  destruct (Req_dec_T 0 (1 / 2)); [lra |].
  destruct (Req_dec_T (1 / 2) (1 / 2)); [reflexivity | lra].
Qed.

Lemma INR_255 : INR 255 = 255.
Proof. rewrite INR_IZR_INZ. reflexivity. Qed.

Lemma mixChannel_0_255_extrapolated :
  mixChannel 0 255
    (JS.div (JS.sub (Fin (255 / 255)) (Fin 0)) (JS.sub (Fin (1 / 2)) (Fin 0)))
  = Fin 510.
Proof.
  unfold mixChannel. simpl.
  destruct (Req_dec_T (1 / 2 + - 0) 0); [lra |].
  simpl. f_equal. change 510 with (IZR 510). f_equal.
  apply Zfloor_eq. simpl.
  replace ((255 / 255 + - 0) / (1 / 2 + - 0)) with 2 by field.
  lra.
Qed.

Lemma halfGradient_entry_255 :
  lookupEntry [0; 1 / 2] [black; white] 255 = Returned (Fin 510, Fin 510, Fin 510).
Proof.
  assert (Hidx : stopIndex [0; 1 / 2] (INR 255 / 255) = 1%Z).
  { rewrite INR_255. unfold stopIndex. cbn [findIndex].
    destruct (Rle_dec (255 / 255) 0); [lra |].
    destruct (Rle_dec (255 / 255) (1 / 2)); [lra |].
    reflexivity. }
  rewrite (lookupEntry_interpolated _ _ _ 1 0 (1 / 2) black white Hidx);
    try reflexivity; [| lia].
  rewrite INR_255. cbn [black white rgb_r rgb_g rgb_b].
  rewrite mixChannel_0_255_extrapolated. reflexivity.
Qed.

Lemma halfGradient_entry_0 :
  lookupEntry [0; 1 / 2] [black; white] 0 = Returned (Fin 0, Fin 0, Fin 0).
Proof.
  assert (Hidx : stopIndex [0; 1 / 2] (INR 0 / 255) = 0%Z).
  { unfold stopIndex. cbn [findIndex INR].
    destruct (Rle_dec (0 / 255) 0); [| lra].
    reflexivity. }
  rewrite (lookupEntry_first _ _ _ black Hidx); reflexivity.
Qed.

End HalfGradient.

Lemma halfGradient_table :
  exists grad : list Entry,
    createGradientLookup halfGradient = Returned grad
    /\ length grad = 256%nat
    /\ nth_error grad 0 = Some (Fin 0, Fin 0, Fin 0)
    /\ nth_error grad 255 = Some (Fin 510, Fin 510, Fin 510).
Proof.
  destruct (createGradientLookup_table halfGradient) as [Htable Hentries];
    [discriminate |].
  eexists. split; [exact Htable |].
  split; [rewrite length_map, length_seq; reflexivity |].
  split.
  - rewrite nth_error_map_seq by lia. f_equal.
    unfold entryAt. rewrite halfGradient_stops, halfGradient_colors.
    rewrite halfGradient_entry_0. reflexivity.
  - rewrite nth_error_map_seq by lia. f_equal.
    unfold entryAt. rewrite halfGradient_stops, halfGradient_colors.
    rewrite halfGradient_entry_255. reflexivity.
Qed.

(** C2 (what the code does at the failing input): for the gradient
    [{0: "#000000", 0.5: "#ffffff"}], whose stops lie in [0, 1], the table
    has 256 entries and entry 0 is the colour of the lowest stop, but entry
    255 is [[510, 510, 510]]: the last segment is extrapolated past the
    highest stop, whose colour is [[255, 255, 255]]. *)
Theorem createGradientLookup_extrapolates_above_last_stop :
  exists grad : list Entry,
    createGradientLookup halfGradient = Returned grad
    /\ length grad = 256%nat
    /\ nth_error grad 0 = Some (Fin 0, Fin 0, Fin 0)
    /\ nth_error grad 255 = Some (Fin 510, Fin 510, Fin 510)
    /\ gradientColor halfGradient (1 / 2) = white.
Proof.
  destruct halfGradient_table as (grad & H1 & H2 & H3 & H4).
  exists grad. repeat (split; [assumption |]).
  unfold halfGradient. simpl.
  destruct (Req_dec_T 0 (1 / 2)); [lra |].
  destruct (Req_dec_T (1 / 2) (1 / 2)); [reflexivity | lra].
Qed.

(* ===================================================================== *)
(** ** Writes to the pixel buffer *)
(* ===================================================================== *)

Section BufferWrites.

Lemma write_length (data : list Z) (idx : nat) (v : Z) :
  length (write data idx v) = length data.
Proof.
  revert idx. induction data as [| d data IH]; intros [| idx]; simpl;
    try reflexivity.
  rewrite IH. reflexivity.
Qed.

Lemma nth_write_same (data : list Z) (idx : nat) (v d : Z) :
  (idx < length data)%nat -> nth idx (write data idx v) d = v.
Proof.
  revert idx. induction data as [| x data IH]; intros [| idx] Hlt; simpl in *;
    try lia; try reflexivity.
  apply IH. lia.
Qed.

Lemma nth_write_other (data : list Z) (idx k : nat) (v d : Z) :
  k <> idx -> nth k (write data idx v) d = nth k data d.
Proof.
  revert idx k. induction data as [| x data IH]; intros [| idx] [| k] Hne;
    simpl; try reflexivity; try congruence.
  apply IH. congruence.
Qed.

Lemma agreeOn_weaken (P Q : nat -> Prop) (d1 d2 : list Z) :
  (forall k, Q k -> P k) -> agreeOn P d1 d2 -> agreeOn Q d1 d2.
Proof. intros HQP [Hlen Hnth]. split; [assumption |]. auto. Qed.

Lemma agreeOn_length (P : nat -> Prop) (d1 d2 : list Z) :
  length d1 = length d2 -> (forall k, ~ P k) -> agreeOn P d1 d2.
Proof. intros Hlen Hnone. split; [assumption |]. intros k Hk. destruct (Hnone k Hk). Qed.

(** The same write on both sides adds the written index to the agreement. *)
Lemma agreeOn_write (P : nat -> Prop) (d1 d2 : list Z) (idx : nat) (v : Z) :
  agreeOn P d1 d2 ->
  agreeOn (fun k => P k \/ k = idx) (write d1 idx v) (write d2 idx v).
Proof.
  intros [Hlen Hnth]. split; [rewrite !write_length; assumption |].
  intros k Hk. destruct (Nat.eq_dec k idx) as [-> | Hne].
  - destruct (Nat.lt_ge_cases idx (length d1)) as [Hlt | Hge].
    + rewrite !nth_write_same by lia. reflexivity.
    + rewrite !nth_overflow by (rewrite write_length; lia). reflexivity.
  - rewrite !nth_write_other by assumption.
    destruct Hk as [Hk | Hk]; [auto | contradiction].
Qed.

Lemma agreeOn_setPixel (P : nat -> Prop) (d1 d2 : list Z)
  (width px py : nat) (c1 c2 : Pixel) :
  sameBytes c1 c2 -> agreeOn P d1 d2 ->
  agreeOn (fun k => P k \/ pixelAt width px py k)
    (setPixel width px py c1 d1) (setPixel width px py c2 d2).
Proof.
  intros (Hr & Hg & Hb & Ha) Hagree. unfold setPixel.
  rewrite Hr, Hg, Hb, Ha.
  eapply agreeOn_weaken;
    [| apply agreeOn_write, agreeOn_write, agreeOn_write, agreeOn_write;
       exact Hagree].
  intros k [Hk | (c & Hc & ->)]; [tauto |].
  assert (c = 0 \/ c = 1 \/ c = 2 \/ c = 3)%nat as [-> | [-> | [-> | ->]]] by lia.
  - left. left. left. right. lia.
  - left. left. right. lia.
  - left. right. lia.
  - right. lia.
Qed.

(** A loop of buffer updates, run on two buffers that agree on [P]: the
    results agree on [P] and on everything the iterations wrote. *)
Lemma fold_left_agree {A : Type} (s1 s2 : list Z -> A -> list Z)
  (W : A -> nat -> Prop) (l : list A) :
  (forall a, In a l -> forall P d1 d2, agreeOn P d1 d2 ->
     agreeOn (fun k => P k \/ W a k) (s1 d1 a) (s2 d2 a)) ->
  forall P d1 d2, agreeOn P d1 d2 ->
    agreeOn (fun k => P k \/ exists a, In a l /\ W a k)
      (fold_left s1 l d1) (fold_left s2 l d2).
Proof.
  induction l as [| a l IH]; intros Hstep P d1 d2 Hagree; simpl.
  - eapply agreeOn_weaken; [| exact Hagree].
    intros k [Hk | (a & [] & _)]. assumption.
  - eapply agreeOn_weaken;
      [| apply IH;
         [intros b Hb; apply Hstep; right; assumption
         | apply (Hstep a (or_introl eq_refl)); exact Hagree]].
    intros k [Hk | (b & [<- | Hb] & Hw)].
    + left. left. assumption.
    + left. right. assumption.
    + right. exists b. split; assumption.
Qed.


Lemma agreeOn_prefill (P : nat -> Prop) (d1 d2 : list Z)
  (width height : nat) (bg : Entry) :
  agreeOn P d1 d2 ->
  agreeOn (fun k => P k \/ imageAt width height k)
    (DirectDraw.prefill width height bg d1)
    (DirectDraw.prefill width height bg d2).
Proof.
  intros Hagree. unfold DirectDraw.prefill. destruct bg as [[bg0 bg1] bg2].
  eapply agreeOn_weaken;
    [| apply (fold_left_agree _ _
                (fun py k => exists px, (px < width)%nat /\ pixelAt width px py k));
       [| exact Hagree]].
  - intros k [Hk | (px & py & Hpx & Hpy & Hpix)]; [left; assumption |].
    right. exists py. split; [apply in_seq; lia |]. exists px. tauto.
  - intros py Hpy Q e1 e2 Hq.
    eapply agreeOn_weaken;
      [| apply (fold_left_agree _ _ (fun px k => pixelAt width px py k));
         [| exact Hq]].
    + intros k [Hk | (px & Hpx & Hpix)]; [left; assumption |].
      right. exists px. split; [apply in_seq; lia | assumption].
    + intros px Hpx Q' f1 f2 Hq'.
      apply agreeOn_setPixel; [repeat split | assumption].
Qed.

(** Every index of a [4 * width * height] buffer belongs to a pixel. *)
Lemma imageAt_covers (width height k : nat) :
  (k < 4 * width * height)%nat -> imageAt width height k.
Proof.
  intros Hk.
  assert (Hw : (0 < width)%nat) by (destruct width; [simpl in Hk; lia | lia]).
  exists ((k / 4) mod width)%nat, ((k / 4) / width)%nat.
  pose proof (Nat.div_mod_eq k 4) as H4.
  pose proof (Nat.mod_upper_bound k 4 ltac:(lia)) as Hm4.
  pose proof (Nat.div_mod_eq (k / 4) width) as Hq.
  pose proof (Nat.mod_upper_bound (k / 4) width ltac:(lia)) as Hmw.
  split; [assumption |]. split.
  - apply Nat.Div0.div_lt_upper_bound.
    apply Nat.Div0.div_lt_upper_bound. lia.
  - exists (k mod 4)%nat. split; [assumption |]. nia.
Qed.

Lemma agreeOn_image_eq (width height : nat) (d1 d2 : list Z) :
  length d1 = (4 * width * height)%nat ->
  agreeOn (imageAt width height) d1 d2 -> d1 = d2.
Proof.
  intros Hlen [Hlen2 Hnth]. apply (nth_ext _ _ 0%Z 0%Z); [assumption |].
  intros k Hk. apply Hnth, imageAt_covers. lia.
Qed.

End BufferWrites.

(* ===================================================================== *)
(** ** Shape of the table entries *)
(* ===================================================================== *)

Section TableShape.

Lemma mixChannel_intish (c0 c1 : Z) (f : num) : intish (mixChannel c0 c1 f).
Proof.
  unfold mixChannel.
  destruct (round_fin_or_same
              (JS.add (Fin (IZR c0))
                 (JS.mul (JS.sub (Fin (IZR c1)) (Fin (IZR c0))) f)))
    as [(z & Hz) | (Hsame & Hnot)].
  - left. exists z. assumption.
  - right. rewrite Hsame. assumption.
Qed.

Lemma mixChannel_fin (c0 c1 : Z) (q : R) : JS.is_fin (mixChannel c0 c1 (Fin q)).
Proof. unfold mixChannel. simpl. exact I. Qed.

Lemma int_intish (z : Z) : intish (Fin (IZR z)).
Proof. left. exists z. reflexivity. Qed.

Variable stops : list R.
Variable colors : list Rgb.
Hypothesis stops_nonempty : stops <> [].
Hypothesis colors_length : length colors = length stops.


Lemma tOf_nonneg (i : nat) : 0 <= tableParam i.
Proof.
  unfold tableParam. pose proof (pos_INR i).
  apply Rmult_le_pos; [assumption | lra].
Qed.

Lemma tOf_zero : tableParam 0 = 0.
Proof. unfold tableParam. simpl. lra. Qed.

(** The entry of index [i], by the index the loop body settles on. *)
Lemma entryAt_cases (i : nat) :
  (stopIndex stops (tableParam i) = 0%Z
   /\ exists c, index colors 0 = Some c
        /\ entryAt stops colors i
           = (Fin (IZR (rgb_r c)), Fin (IZR (rgb_g c)), Fin (IZR (rgb_b c))))
  \/ (stopIndex stops (tableParam i) <> 0%Z
      /\ exists s0 s1 c0 c1,
           index stops (stopIndex stops (tableParam i) - 1) = Some s0
           /\ index stops (stopIndex stops (tableParam i)) = Some s1
           /\ index colors (stopIndex stops (tableParam i) - 1) = Some c0
           /\ index colors (stopIndex stops (tableParam i)) = Some c1
           /\ entryAt stops colors i
              = let f := JS.div (JS.sub (Fin (tableParam i)) (Fin s0))
                                (JS.sub (Fin s1) (Fin s0)) in
                (mixChannel (rgb_r c0) (rgb_r c1) f,
                 mixChannel (rgb_g c0) (rgb_g c1) f,
                 mixChannel (rgb_b c0) (rgb_b c1) f)).
Proof.
  pose proof (stopIndex_range stops (tableParam i) stops_nonempty) as Hr.
  destruct (Z.eq_dec (stopIndex stops (tableParam i)) 0) as [Hz | Hnz].
  - left. split; [assumption |].
    destruct (index_in_range colors 0) as [c Hc]; [lia |].
    exists c. split; [assumption |].
    unfold entryAt. rewrite (lookupEntry_first _ _ _ c Hz Hc). reflexivity.
  - right. split; [assumption |].
    destruct (index_in_range stops (stopIndex stops (tableParam i) - 1)) as [s0 Hs0];
      [lia |].
    destruct (index_in_range stops (stopIndex stops (tableParam i))) as [s1 Hs1];
      [lia |].
    destruct (index_in_range colors (stopIndex stops (tableParam i) - 1)) as [c0 Hc0];
      [lia |].
    destruct (index_in_range colors (stopIndex stops (tableParam i))) as [c1 Hc1];
      [lia |].
    exists s0, s1, c0, c1. repeat (split; [assumption |]).
    unfold entryAt.
    rewrite (lookupEntry_interpolated _ _ _ _ s0 s1 c0 c1 eq_refl Hnz
               Hs0 Hs1 Hc0 Hc1).
    reflexivity.
Qed.

Lemma entryAt_intish (i : nat) :
  let '(e0, e1, e2) := entryAt stops colors i in
  intish e0 /\ intish e1 /\ intish e2.
Proof.
  destruct (entryAt_cases i) as [(_ & c & _ & ->) | (_ & s0 & s1 & c0 & c1 & _ & _ & _ & _ & ->)].
  - repeat split; apply int_intish.
  - cbv zeta. repeat split; apply mixChannel_intish.
Qed.

Lemma index_In {T : Type} (l : list T) (k : Z) (a : T) :
  index l k = Some a -> In a l.
Proof.
  unfold index. destruct (k <? 0)%Z; [discriminate |]. apply nth_error_In.
Qed.

(** When no stop is at or above [t = 0], no stop is at or above any [t]
    of the table. *)
Lemma fallback_everywhere (i : nat) :
  findIndex (atOrAbove (tableParam 0)) stops = (-1)%Z ->
  findIndex (atOrAbove (tableParam i)) stops = (-1)%Z.
Proof.
  intros H0. apply findIndex_none. intros s Hs.
  pose proof (proj1 (findIndex_none _ _) H0 s Hs) as Hb.
  unfold atOrAbove in *. rewrite tOf_zero in Hb. pose proof (tOf_nonneg i).
  destruct (Rle_dec 0 s); [discriminate |].
  destruct (Rle_dec (tableParam i) s); [lra | reflexivity].
Qed.

(** Either the background entry is finite, or every entry is equal to it. *)
Lemma entryAt_background (i : nat) :
  entryOK (entryAt stops colors i) (entryAt stops colors 0).
Proof.
  pose proof (entryAt_intish i) as Hint.
  destruct (entryAt_cases 0)
    as [(_ & c & _ & Hbg) | (Hnz & s0 & s1 & c0 & c1 & Hs0 & Hs1 & Hc0 & Hc1 & Hbg)].
  - rewrite Hbg. destruct (entryAt stops colors i) as [[e0 e1] e2].
    destruct Hint as (H0 & H1 & H2).
    repeat split; try assumption; left; exact I.
  - destruct (Req_dec_T (s1 + - s0) 0) as [Hsame | Hdiff].
    + (* the two stops coincide: only the fallback can select them *)
      assert (Hfound : findIndex (atOrAbove (tableParam 0)) stops = (-1)%Z).
      { destruct (findIndex_range (atOrAbove (tableParam 0)) stops) as [Hm | Hrange];
          [assumption |]. exfalso.
        assert (Hidx : stopIndex stops (tableParam 0) = findIndex (atOrAbove (tableParam 0)) stops).
        { unfold stopIndex. fold (atOrAbove (tableParam 0)).
          destruct (findIndex (atOrAbove (tableParam 0)) stops =? -1)%Z eqn:E;
            [apply Z.eqb_eq in E; lia | reflexivity]. }
        rewrite Hidx in *.
        assert (Hge : (1 <= findIndex (atOrAbove (tableParam 0)) stops)%Z) by lia.
        assert (Hge0 : (0 <= findIndex (atOrAbove (tableParam 0)) stops)%Z) by lia.
        pose proof (findIndex_found _ _ _ Hge0 Hs1) as Hp1.
        pose proof (findIndex_before _ _ _ Hge Hs0) as Hp0.
        unfold atOrAbove in Hp0, Hp1.
        destruct (Rle_dec (tableParam 0) s1); [| discriminate].
        destruct (Rle_dec (tableParam 0) s0); [discriminate |]. lra. }
      assert (Hidx : stopIndex stops (tableParam i) = stopIndex stops (tableParam 0)).
      { unfold stopIndex. fold (atOrAbove (tableParam i)). fold (atOrAbove (tableParam 0)).
        rewrite Hfound, (fallback_everywhere i Hfound). reflexivity. }
      assert (Hs0neg : s0 < 0).
      { pose proof (proj1 (findIndex_none _ _) Hfound s0 (index_In _ _ _ Hs0)) as Hb.
        unfold atOrAbove in Hb. rewrite tOf_zero in Hb.
        destruct (Rle_dec 0 s0); [discriminate | lra]. }
      assert (Hf : forall n,
                JS.div (JS.sub (Fin (tableParam n)) (Fin s0)) (JS.sub (Fin s1) (Fin s0))
                = PInf).
      { intros n. simpl. destruct (Req_dec_T (s1 + - s0) 0); [| contradiction].
        unfold JS.inf_signed. pose proof (tOf_nonneg n).
        destruct (Rlt_dec 0 (tableParam n + - s0)); [reflexivity | lra]. }
      assert (Heq : entryAt stops colors i = entryAt stops colors 0).
      { rewrite Hbg.
        destruct (entryAt_cases i)
          as [(Hz & _) | (_ & t0 & t1 & d0 & d1 & Ht0 & Ht1 & Hd0 & Hd1 & ->)];
          [rewrite Hidx in Hz; contradiction |].
        rewrite Hidx in Ht0, Ht1, Hd0, Hd1.
        assert (t0 = s0) by congruence. assert (t1 = s1) by congruence.
        assert (d0 = c0) by congruence. assert (d1 = c1) by congruence.
        subst. cbv zeta. rewrite !Hf. reflexivity. }
      rewrite Heq in *. destruct (entryAt stops colors 0) as [[e0 e1] e2].
      destruct Hint as (H0 & H1 & H2).
      repeat split; try assumption; right; reflexivity.
    + rewrite Hbg. cbv zeta.
      assert (Hf : exists q,
                JS.div (JS.sub (Fin (tableParam 0)) (Fin s0)) (JS.sub (Fin s1) (Fin s0))
                = Fin q).
      { simpl. destruct (Req_dec_T (s1 + - s0) 0); [contradiction |].
        eexists; reflexivity. }
      destruct Hf as [q ->].
      destruct (entryAt stops colors i) as [[e0 e1] e2].
      destruct Hint as (H0 & H1 & H2).
      repeat split; try assumption; left; apply mixChannel_fin.
Qed.

End TableShape.

Lemma createGradientLookup_entries (gradient : Gradient) (grad : list Entry) :
  createGradientLookup gradient = Returned grad ->
  exists bg, index grad 0 = Some bg
             /\ forall k entry, tableGet grad k = Some entry -> entryOK entry bg.
Proof.
  intros H.
  assert (Hne : gradient <> []).
  { intros ->. rewrite createGradientLookup_empty in H. discriminate. }
  destruct (createGradientLookup_table gradient Hne) as [Heq _].
  rewrite Heq in H.
  assert (Hg : grad = map (entryAt (sortedStops gradient) (stopColors gradient))
                        (seq 0 256)) by congruence.
  clear H Heq.
  assert (Hstops : sortedStops gradient <> []).
  { intros E. apply (f_equal (@length R)) in E. unfold sortedStops in E.
    rewrite sortAscending_length in E. rewrite length_map in E.
    destruct gradient; [congruence | discriminate]. }
  assert (Hlen : length (stopColors gradient) = length (sortedStops gradient))
    by (unfold stopColors; apply length_map).
  exists (entryAt (sortedStops gradient) (stopColors gradient) 0). split.
  - rewrite Hg. unfold index.
    change (0 <? 0)%Z with false. change (Z.to_nat 0) with 0%nat.
    apply nth_error_map_seq. lia.
  - intros k entry Hget.
    assert (Hin : In entry grad).
    { destruct k as [x | | |]; try discriminate. simpl in Hget.
      destruct (Req_dec_T (IZR (Zfloor x)) x); [| discriminate].
      eapply index_In; eassumption. }
    rewrite Hg in Hin. apply in_map_iff in Hin as (i & <- & _).
    apply entryAt_background; assumption.
Qed.

(* ===================================================================== *)
(** ** One cell in the two variants *)
(* ===================================================================== *)

Section CellPixels.






(** The loop of the fine-grained variant computes the same two sums. *)
Lemma fine_accumulate_fold (latlng : LatLng) (e : option R)
  (points : list Point) (acc : Acc) :
  fold_left (FineGrained.accumulate latlng e) points
    (numerator acc, denominator acc)
  = (numerator (fold_left (accumulate latlng (FineGrained.effectiveExp e))
                  points acc),
     denominator (fold_left (accumulate latlng (FineGrained.effectiveExp e))
                    points acc)).
Proof.
  revert acc. induction points as [| p points IH]; intros acc; simpl;
    [reflexivity |].
  rewrite <- IH. reflexivity.
Qed.

Lemma effectiveExp_default (e : option R) :
  expOmittedOrPositive e -> FineGrained.effectiveExp e = orDefault e 2.
Proof.
  destruct e as [x |]; simpl; [| reflexivity].
  intros Hx. destruct (Req_dec_T x 0); [lra | reflexivity].
Qed.

Variable points : list Point.
Variable e : option R.
Variable max : R.
Variable grad : list Entry.
Variable bg : Entry.
Hypothesis exp_ok : expOmittedOrPositive e.
Hypothesis max_nonzero : max <> 0.
Hypothesis table_ok :
  forall k entry, tableGet grad k = Some entry -> entryOK entry bg.

(** Both variants read the same table entry. *)
Lemma fine_index (latlng : LatLng) :
  FineGrained.cellPixel points e max grad latlng
  = match tableGet grad
            (DirectDraw.gradientIndex
               (DirectDraw.clampToMax (cellValue latlng (orDefault e 2) points)
                  max) max) with
    | None => Thrown TypeError
    | Some (c0, c1, c2) =>
        Returned {| px_r := c0; px_g := c1; px_b := c2; px_a := Fin 255 |}
    end.
Proof.
  unfold FineGrained.cellPixel.
  change (Fin 0, Fin 0) with (numerator accInit, denominator accInit).
  rewrite fine_accumulate_fold, effectiveExp_default by assumption.
  unfold DirectDraw.gradientIndex, DirectDraw.clampToMax, cellValue,
    accumulateAll.
  simpl JS.is_zero. destruct (Req_dec_T max 0); [contradiction |].
  reflexivity.
Qed.



End CellPixels.

(* ===================================================================== *)
(** ** The cell loops *)
(* ===================================================================== *)

Section CellLoops.

Lemma fold_left_length {A : Type} (step : list Z -> A -> list Z) (l : list A) :
  (forall d a, length (step d a) = length d) ->
  forall d, length (fold_left step l d) = length d.
Proof.
  intros Hstep. induction l as [| a l IH]; intros d; simpl; [reflexivity |].
  rewrite IH. apply Hstep.
Qed.

Lemma setPixel_length (width px py : nat) (c : Pixel) (data : list Z) :
  length (setPixel width px py c data) = length data.
Proof. unfold setPixel. rewrite !write_length. reflexivity. Qed.

Lemma fillCell_length (width height r x y : nat) (c : Pixel) (data : list Z) :
  length (fillCell width height r x y c data) = length data.
Proof.
  unfold fillCell. apply fold_left_length. intros d dy.
  apply fold_left_length. intros d' dx. cbv zeta.
  destruct (_ && _); [apply setPixel_length | reflexivity].
Qed.

Lemma prefill_length (width height : nat) (bg : Entry) (data : list Z) :
  length (DirectDraw.prefill width height bg data) = length data.
Proof.
  unfold DirectDraw.prefill. destruct bg as [[b0 b1] b2].
  apply fold_left_length. intros d py.
  apply fold_left_length. intros d' px. apply setPixel_length.
Qed.

Lemma forM_length {A : Type} (body : list Z -> A -> outcome (list Z)) (l : list A) :
  (forall d a d', body d a = Returned d' -> length d' = length d) ->
  forall d d', forM body l d = Returned d' -> length d' = length d.
Proof.
  intros Hbody. induction l as [| a l IH]; intros d d' H; simpl in H.
  - injection H as <-. reflexivity.
  - destruct (body d a) as [d1 | |] eqn:E; simpl in H; try discriminate.
    rewrite (IH _ _ H). eapply Hbody; eassumption.
Qed.

Lemma forM_map {A B S : Type} (body : S -> B -> outcome S) (f : A -> B)
  (l : list A) (s : S) :
  forM body (map f l) s = forM (fun s a => body s (f a)) l s.
Proof.
  revert s. induction l as [| a l IH]; intros s; simpl; [reflexivity |].
  destruct (body s (f a)); simpl; auto.
Qed.

Lemma forM_returns {A S : Type} (body : S -> A -> outcome S) (l : list A) :
  (forall s a, exists s', body s a = Returned s') ->
  forall s, exists s', forM body l s = Returned s'.
Proof.
  intros Hbody. induction l as [| a l IH]; intros s; simpl.
  - eexists; reflexivity.
  - destruct (Hbody s a) as [s1 ->]. simpl. apply IH.
Qed.



(** [a] cells of size [r] end before [stop] exactly when [a] is below the
    number of cells. *)
Lemma ceilDiv_spec (stop r a : nat) :
  (1 <= r)%nat -> (a < ceilDiv stop r)%nat <-> (a * r < stop)%nat.
Proof.
  intros Hr. unfold ceilDiv. split; intros H.
  - pose proof (Nat.Div0.mul_div_le (stop + r - 1) r) as Hm. nia.
  - apply (Nat.div_le_lower_bound (stop + r - 1) r (S a)); [lia | nia].
Qed.

Lemma stepFrom_cells (stop r fuel a : nat) :
  (1 <= r)%nat -> (stop <= a * r + fuel)%nat ->
  stepFrom fuel (a * r) stop r
  = map (fun i => (i * r)%nat) (seq a (ceilDiv stop r - a)).
Proof.
  intros Hr. revert a. induction fuel as [| fuel IH]; intros a Hfuel.
  - assert (~ (a < ceilDiv stop r)%nat) by (rewrite ceilDiv_spec by assumption; lia).
    replace (ceilDiv stop r - a)%nat with 0%nat by lia. reflexivity.
  - simpl. destruct (a * r <? stop)%nat eqn:E.
    + apply Nat.ltb_lt in E.
      assert (a < ceilDiv stop r)%nat by (rewrite ceilDiv_spec; assumption).
      replace (ceilDiv stop r - a)%nat with (S (ceilDiv stop r - S a)) by lia.
      simpl. f_equal.
      replace (a * r + r)%nat with (S a * r)%nat by lia.
      apply IH. lia.
    + apply Nat.ltb_ge in E.
      assert (~ (a < ceilDiv stop r)%nat) by (rewrite ceilDiv_spec by assumption; lia).
      replace (ceilDiv stop r - a)%nat with 0%nat by lia. reflexivity.
Qed.

(** The stepping loop visits the cell origins [0, r, 2r, ...]: it ends,
    after [Math.ceil(stop / r)] iterations. *)
Lemma stepRange_cells (stop r : nat) :
  (1 <= r)%nat ->
  stepRange stop r = map (fun i => (i * r)%nat) (seq 0 (ceilDiv stop r)).
Proof.
  intros Hr. unfold stepRange.
  change 0%nat with (0 * r)%nat at 1.
  rewrite (stepFrom_cells stop r stop 0 Hr) by lia.
  rewrite Nat.sub_0_r. reflexivity.
Qed.

(** The cells tile the image. *)
Lemma cells_cover (width height r k : nat) :
  (1 <= r)%nat -> imageAt width height k ->
  exists i, In i (seq 0 (ceilDiv height r))
    /\ exists j, In j (seq 0 (ceilDiv width r))
         /\ cellAt width height r (j * r) (i * r) k.
Proof.
  intros Hr (px & py & Hpx & Hpy & Hpix).
  pose proof (Nat.div_mod_eq px r) as Hx.
  pose proof (Nat.div_mod_eq py r) as Hy.
  pose proof (Nat.mod_upper_bound px r ltac:(lia)) as Hmx.
  pose proof (Nat.mod_upper_bound py r ltac:(lia)) as Hmy.
  exists (py / r)%nat. split.
  { apply in_seq. split; [lia |]. simpl. apply ceilDiv_spec; [assumption | nia]. }
  exists (px / r)%nat. split.
  { apply in_seq. split; [lia |]. simpl. apply ceilDiv_spec; [assumption | nia]. }
  exists (px mod r)%nat, (py mod r)%nat.
  replace (px / r * r + px mod r)%nat with px by nia.
  replace (py / r * r + py mod r)%nat with py by nia.
  repeat split; assumption.
Qed.

End CellLoops.

(* ===================================================================== *)
(** ** The two variants on a whole image *)
(* ===================================================================== *)

Section Variants.

Variable width height r : nat.
Variable points : list Point.
Variable e : option R.
Variable max : R.
Variable grad : list Entry.
Variable bg : Entry.
Variable bounds : Bounds.

Hypothesis exp_ok : expOmittedOrPositive e.
Hypothesis max_nonzero : max <> 0.
Hypothesis table_ok :
  forall k entry, tableGet grad k = Some entry -> entryOK entry bg.



Hypothesis cells_near :
  forall i j, (i < ceilDiv height r)%nat -> (j < ceilDiv width r)%nat ->
    exists p, In p points
      /\ distTo (DirectDraw.cellCentre width height r (j * r) (i * r) bounds) p
         <= 100000.



End Variants.


(** C9: the outcome of [interpolateIDW_directdraw] is determined by the
    sample points and the options (configuration, gradient, bounding box):
    two invocations on the same inputs return byte-identical buffers (or
    throw alike), whatever the freshly allocated buffers contained. *)
Theorem directdraw_deterministic
  (points : list Point) (options : Options.t) (fresh1 fresh2 : list Z) :
  length fresh1 = (4 * Options.width options * Options.height options)%nat ->
  length fresh2 = (4 * Options.width options * Options.height options)%nat ->
  DirectDraw.interpolateIDW_directdraw points options fresh1
  = DirectDraw.interpolateIDW_directdraw points options fresh2.
Proof.
  intros Hlen1 Hlen2. unfold DirectDraw.interpolateIDW_directdraw.
  destruct (createGradientLookup (Options.gradient options)) as [grad | x |];
    simpl; try reflexivity.
  destruct (index grad 0) as [bg |]; [| reflexivity].
  f_equal.
  apply (agreeOn_image_eq (Options.width options) (Options.height options)).
  - rewrite prefill_length. assumption.
  - eapply agreeOn_weaken;
      [| apply agreeOn_prefill with (P := fun _ => False);
         apply agreeOn_length; [lia | tauto]].
    intros k Hk. right. assumption.
Qed.

Lemma directdraw_deterministic_witness :
  DirectDraw.interpolateIDW_directdraw tinyPoints tinyOptions [0; 0; 0; 0]%Z
  = DirectDraw.interpolateIDW_directdraw tinyPoints tinyOptions [7; 7; 7; 7]%Z.
Proof.
  apply (directdraw_deterministic tinyPoints tinyOptions
           [0; 0; 0; 0]%Z [7; 7; 7; 7]%Z); reflexivity.
Defined.


(* ===================================================================== *)
(** ** No sample points *)
(* ===================================================================== *)

Section EmptyPointSet.

Lemma cellValue_empty (latlng : LatLng) (e : R) : cellValue latlng e [] = NaN.
Proof.
  unfold cellValue, accumulateAll, accInit. simpl.
  destruct (Req_dec_T 0 0); [| lra]. apply inf_signed_zero. reflexivity.
Qed.

Lemma featherAlpha_no_points : DirectDraw.featherAlpha PInf = Fin 0.
Proof.
  unfold DirectDraw.featherAlpha, DirectDraw.FADE_DISTANCE. simpl.
  destruct (Rlt_dec 100000 0); [lra | reflexivity].
Qed.

Lemma cellPixel_empty_throws (e max : R) (grad : list Entry) (bg : Entry)
  (latlng : LatLng) :
  max <> 0 ->
  DirectDraw.cellPixel [] e max grad bg latlng = Thrown TypeError.
Proof.
  intros Hmax. unfold DirectDraw.cellPixel.
  fold (cellValue latlng e []). rewrite cellValue_empty.
  unfold DirectDraw.gradientIndex, DirectDraw.clampToMax. simpl.
  destruct (Req_dec_T max 0); [contradiction | reflexivity].
Qed.

Lemma cellPixel_empty_max_zero (e : R) (grad : list Entry) (bg ic : Entry)
  (latlng : LatLng) :
  index grad 0 = Some ic ->
  DirectDraw.cellPixel [] e 0 grad bg latlng
  = Returned
      {| px_r := DirectDraw.blend (fst (fst ic)) (fst (fst bg)) (Fin 0);
         px_g := DirectDraw.blend (snd (fst ic)) (snd (fst bg)) (Fin 0);
         px_b := DirectDraw.blend (snd ic) (snd bg) (Fin 0);
         px_a := JS.round (JS.mul (Fin 255) (Fin 0)) |}.
Proof.
  intros Hic. unfold DirectDraw.cellPixel.
  fold (cellValue latlng e []). rewrite cellValue_empty.
  rewrite gradientIndex_max_zero.
  change (minDist (accumulateAll latlng e [])) with PInf.
  rewrite featherAlpha_no_points.
  rewrite (tableGet_int grad 0), Hic.
  destruct ic as [[i0 i1] i2], bg as [[b0 b1] b2]. reflexivity.
Qed.

Lemma ceilDiv_pos (a r : nat) : (0 < a)%nat -> (1 <= r)%nat -> (0 < ceilDiv a r)%nat.
Proof. intros Ha Hr. apply ceilDiv_spec; [assumption | lia]. Qed.

Lemma drawCells_empty_throws (width height r : nat) (e max : R)
  (grad : list Entry) (bg : Entry) (bounds : Bounds) (data : list Z) :
  max <> 0 -> (0 < width)%nat -> (0 < height)%nat ->
  DirectDraw.drawCells width height r [] e max grad bg bounds data
  = Thrown TypeError.
Proof.
  intros Hmax Hw Hh. unfold DirectDraw.drawCells.
  destruct (r =? 0)%nat eqn:Er.
  - destruct (height =? 0)%nat eqn:Eh; [apply Nat.eqb_eq in Eh; lia |].
    destruct (width =? 0)%nat eqn:Ew; [apply Nat.eqb_eq in Ew; lia |].
    unfold DirectDraw.cellStep.
    rewrite cellPixel_empty_throws by assumption. reflexivity.
  - apply Nat.eqb_neq in Er.
    pose proof (ceilDiv_pos width r Hw ltac:(lia)) as Hx.
    pose proof (ceilDiv_pos height r Hh ltac:(lia)) as Hy.
    destruct (ceilDiv width r) as [| nx]; [lia |].
    destruct (ceilDiv height r) as [| ny]; [lia |].
    cbn [seq forM]. unfold DirectDraw.cellStep at 1.
    rewrite cellPixel_empty_throws by assumption. reflexivity.
Qed.

Lemma drawCells_empty_returns (width height r : nat) (e : R)
  (grad : list Entry) (bg ic : Entry) (bounds : Bounds) (data : list Z) :
  (1 <= r)%nat -> index grad 0 = Some ic ->
  exists buf,
    DirectDraw.drawCells width height r [] e 0 grad bg bounds data = Returned buf.
Proof.
  intros Hr Hic. unfold DirectDraw.drawCells.
  destruct (r =? 0)%nat eqn:Er; [apply Nat.eqb_eq in Er; lia |].
  apply forM_returns. intros d i. apply forM_returns. intros d' j.
  unfold DirectDraw.cellStep.
  rewrite (cellPixel_empty_max_zero _ _ _ ic) by assumption.
  eexists; reflexivity.
Qed.

Lemma createGradientLookup_outcome (gradient : Gradient) :
  createGradientLookup gradient = Thrown TypeError
  \/ exists grad bg, createGradientLookup gradient = Returned grad
                     /\ index grad 0 = Some bg.
Proof.
  destruct (createGradientLookup gradient) as [grad | [] |] eqn:H.
  - right. destruct (createGradientLookup_entries _ _ H) as (bg & Hbg & _).
    exists grad, bg. split; [reflexivity | assumption].
  - left. reflexivity.
  - exfalso. destruct gradient as [| kc gradient].
    + rewrite createGradientLookup_empty in H. discriminate.
    + destruct (createGradientLookup_table (kc :: gradient)) as [Heq _];
        [discriminate |].
      rewrite Heq in H. discriminate.
Qed.

End EmptyPointSet.

(** C3 (as amended): when the render operation is invoked with an empty
    list of sample points there is no structured error.  The interpolated
    value of every cell is [0/0 = NaN]; for [max] different from 0 and an
    image of at least one pixel the call throws the raw [TypeError] of
    reading a component of the undefined table entry [grad[NaN]]; for
    [max = 0], a gradient with a stop and a cell size of at least 1 it
    returns a buffer. *)
Theorem empty_points_raw_exception_or_success
  (options : Options.t) (fresh : list Z) :
  (0 < Options.width options)%nat -> (0 < Options.height options)%nat ->
  (forall latlng e, cellValue latlng e [] = NaN)
  /\ (orDefault (Options.max options) 1 <> 0 ->
      DirectDraw.interpolateIDW_directdraw [] options fresh = Thrown TypeError)
  /\ (orDefault (Options.max options) 1 = 0 ->
      Options.gradient options <> [] ->
      (1 <= orDefault (Options.cellSize options) 10%nat)%nat ->
      exists buf,
        DirectDraw.interpolateIDW_directdraw [] options fresh = Returned buf).
Proof.
  intros Hw Hh. split; [apply cellValue_empty |]. split.
  - intros Hmax. unfold DirectDraw.interpolateIDW_directdraw.
    destruct (createGradientLookup_outcome (Options.gradient options))
      as [-> | (grad & bg & -> & Hbg)]; [reflexivity |].
    simpl. rewrite Hbg. apply drawCells_empty_throws; assumption.
  - intros Hmax Hgrad Hr. unfold DirectDraw.interpolateIDW_directdraw.
    destruct (createGradientLookup_outcome (Options.gradient options))
      as [Hthrown | (grad & bg & -> & Hbg)].
    + exfalso. destruct (createGradientLookup_table _ Hgrad) as [Heq _].
      rewrite Heq in Hthrown. discriminate.
    + simpl. rewrite Hbg, Hmax.
      apply (drawCells_empty_returns _ _ _ _ _ _ bg); assumption.
Qed.

Lemma empty_points_raw_exception_or_success_witness :
  DirectDraw.interpolateIDW_directdraw [] tinyOptions [0; 0; 0; 0]%Z
  = Thrown TypeError
  /\ exists buf,
       DirectDraw.interpolateIDW_directdraw [] tinyOptionsMaxZero [0; 0; 0; 0]%Z
       = Returned buf.
Proof.
  split.
  - apply (empty_points_raw_exception_or_success tinyOptions [0; 0; 0; 0]%Z);
      simpl; try lia; lra.
  - apply (empty_points_raw_exception_or_success tinyOptionsMaxZero
             [0; 0; 0; 0]%Z); simpl; try lia; try reflexivity; discriminate.
Defined.

Section TinyImage.

Lemma blend_alpha_zero (a b : Z) :
  DirectDraw.blend (Fin (IZR a)) (Fin (IZR b)) (Fin 0) = Fin (IZR b).
Proof. unfold DirectDraw.blend. simpl. apply round_eq. lra. Qed.

Lemma alpha_byte_zero : JS.round (JS.mul (Fin 255) (Fin 0)) = Fin 0.
Proof. simpl JS.mul. apply (round_eq 0). lra. Qed.

Lemma alpha_byte_full : JS.round (JS.mul (Fin 255) (Fin 1)) = Fin 255.
Proof. simpl JS.mul. apply (round_eq 255). lra. Qed.

End TinyImage.

(** C3 (counterexample): with no sample points, [max = 0] and a one-pixel
    image the call does not fail: it returns the buffer [[0, 0, 0, 0]], the
    background colour with alpha 0, after dividing [0/0] silently. *)
Lemma empty_points_returns_silently :
  DirectDraw.interpolateIDW_directdraw [] tinyOptionsMaxZero [0; 0; 0; 0]%Z
  = Returned [0; 0; 0; 0]%Z.
Proof.
  destruct halfGradient_table as (grad & Hgrad & _ & Hbg & _).
  assert (Hidx : index grad 0 = Some (Fin 0, Fin 0, Fin 0)) by exact Hbg.
  unfold DirectDraw.interpolateIDW_directdraw, tinyOptionsMaxZero.
  cbn [Options.width Options.height Options.cellSize Options.max
       Options.gradient Options.bounds Options.exp orDefault].
  rewrite Hgrad. cbn [bind]. rewrite Hidx.
  unfold DirectDraw.prefill, DirectDraw.drawCells.
  cbn [Nat.eqb ceilDiv seq fold_left forM].
  change (ceilDiv 1 1) with 1%nat. cbn [seq forM].
  unfold DirectDraw.cellStep.
  rewrite (cellPixel_empty_max_zero _ _ _ (Fin 0, Fin 0, Fin 0)) by assumption.
  cbn [fst snd bind].
  rewrite (blend_alpha_zero 0 0), alpha_byte_zero, alpha_byte_full.
  unfold fillCell. cbn [seq fold_left Nat.add Nat.mul Nat.ltb Nat.leb andb].
  unfold setPixel. cbn [px_r px_g px_b px_a].
  rewrite (toUint8_int 0), (toUint8_int 255).
  reflexivity.
Qed.

(* ===================================================================== *)
(** ** The render returns on well-formed input *)
(* ===================================================================== *)

Section Returns.

Lemma directdraw_cellStep_length (width height r : nat) (points : list Point)
  (e max : R) (grad : list Entry) (bg : Entry) (bounds : Bounds) (i j : nat)
  (d d' : list Z) :
  DirectDraw.cellStep width height r points e max grad bg bounds i j d
  = Returned d' ->
  length d' = length d.
Proof.
  unfold DirectDraw.cellStep.
  destruct (DirectDraw.cellPixel _ _ _ _ _ _); simpl; try discriminate.
  intros H; injection H as <-. apply fillCell_length.
Qed.

Lemma directdraw_cellPixel_returns (points : list Point) (e max : R)
  (grad : list Entry) (bg : Entry) (latlng : LatLng) :
  length grad = 256%nat ->
  0 < max -> 0 <= e -> points <> [] ->
  (forall p, In p points -> 0 <= pt_val p) ->
  exists c, DirectDraw.cellPixel points e max grad bg latlng = Returned c.
Proof.
  intros Hlen Hm He Hne Hvals. unfold DirectDraw.cellPixel.
  fold (cellValue latlng e points).
  destruct (cell_index_in_table latlng e max points grad Hlen Hm He Hne Hvals)
    as (k & entry & -> & _ & ->).
  destruct entry as [[c0 c1] c2], bg as [[b0 b1] b2].
  eexists; reflexivity.
Qed.

(** On a gradient with a stop, a cell size of at least 1, a positive
    [max], an exponent [>= 0] and at least one sample, none negative, the
    direct-draw variant returns a buffer of the size of the image. *)
Lemma directdraw_returns (points : list Point) (options : Options.t)
  (fresh : list Z) :
  Options.gradient options <> [] ->
  (1 <= orDefault (Options.cellSize options) 10%nat)%nat ->
  0 < orDefault (Options.max options) 1 ->
  0 <= orDefault (Options.exp options) 2 ->
  points <> [] ->
  (forall p, In p points -> 0 <= pt_val p) ->
  exists buf,
    DirectDraw.interpolateIDW_directdraw points options fresh = Returned buf
    /\ length buf = length fresh.
Proof.
  intros Hgrad Hr Hm He Hne Hvals.
  unfold DirectDraw.interpolateIDW_directdraw.
  destruct (createGradientLookup_outcome (Options.gradient options))
    as [Hthrown | (grad & bg & Hret & Hbg)].
  { exfalso. destruct (createGradientLookup_table _ Hgrad) as [Heq _].
    rewrite Heq in Hthrown. discriminate. }
  pose proof (createGradientLookup_length _ _ Hret) as Hlen.
  rewrite Hret. simpl. rewrite Hbg.
  unfold DirectDraw.drawCells.
  destruct (orDefault (Options.cellSize options) 10%nat =? 0)%nat eqn:Er;
    [apply Nat.eqb_eq in Er; lia |].
  match goal with
  | |- exists buf, forM ?body ?l ?d = Returned buf /\ _ =>
      destruct (forM_returns body l) with (s := d) as [buf Hbuf]
  end.
  - intros d i. apply forM_returns. intros d' j.
    unfold DirectDraw.cellStep.
    destruct (directdraw_cellPixel_returns points
                (orDefault (Options.exp options) 2)
                (orDefault (Options.max options) 1) grad bg
                (DirectDraw.cellCentre (Options.width options)
                   (Options.height options)
                   (orDefault (Options.cellSize options) 10%nat)
                   (j * orDefault (Options.cellSize options) 10%nat)
                   (i * orDefault (Options.cellSize options) 10%nat)
                   (Options.bounds options)) Hlen Hm He Hne Hvals) as [c ->].
    eexists; reflexivity.
  - exists buf. split; [assumption |].
    rewrite <- (prefill_length (Options.width options) (Options.height options)
                  bg fresh).
    revert Hbuf. apply forM_length. intros d0 i d1. apply forM_length.
    intros d2 j d3. apply directdraw_cellStep_length.
Qed.

End Returns.

(* ===================================================================== *)
(** ** Geo-projection and distance: further properties *)
(* ===================================================================== *)

Section ProjectionFacts.







Lemma haversine_aVal_sym (a b : LatLng) :
  (sin (toRad (lat b - lat a) / 2)) ^ 2
  + cos (toRad (lat a)) * cos (toRad (lat b))
    * (sin (toRad (lng b - lng a) / 2)) ^ 2
  = (sin (toRad (lat a - lat b) / 2)) ^ 2
    + cos (toRad (lat b)) * cos (toRad (lat a))
      * (sin (toRad (lng a - lng b) / 2)) ^ 2.
Proof.
  unfold toRad.
  replace ((lat a - lat b) * PI / 180 / 2)
    with (- ((lat b - lat a) * PI / 180 / 2)) by field.
  replace ((lng a - lng b) * PI / 180 / 2)
    with (- ((lng b - lng a) * PI / 180 / 2)) by field.
  rewrite !sin_neg. ring.
Qed.

Lemma atan2_quadrant (y x : R) : 0 <= y -> 0 <= x -> atan2 y x <= PI / 2.
Proof.
  intros Hy Hx. unfold atan2. pose proof PI_RGT_0 as Hpi.
  destruct (Rlt_dec 0 x).
  - pose proof (atan_bound (y / x)). lra.
  - destruct (Rlt_dec x 0); [lra |].
    destruct (Rlt_dec 0 y); [lra |].
    destruct (Rlt_dec y 0); lra.
Qed.

End ProjectionFacts.










(** X6: the haversine distance is symmetric. *)
Theorem haversine_symmetric (a b : LatLng) : haversine a b = haversine b a.
Proof.
  unfold haversine. cbv zeta. rewrite (haversine_aVal_sym a b). reflexivity.
Qed.

(** X7: the haversine distance is never negative, never more than half the
    circumference of the sphere of radius 6371000, and zero between a point
    and itself. *)
Theorem haversine_range (a b : LatLng) :
  0 <= haversine a b <= 6371000 * PI /\ haversine a a = 0.
Proof.
  split; [| apply haversine_same].
  split; [apply haversine_nonneg |].
  unfold haversine. cbv zeta.
  match goal with
  | |- _ * 2 * atan2 (sqrt ?u) (sqrt ?v) <= _ =>
      pose proof (atan2_quadrant (sqrt u) (sqrt v) (sqrt_pos _) (sqrt_pos _))
  end.
  lra.
Qed.

(* ===================================================================== *)
(** ** The gradient table: further properties *)
(* ===================================================================== *)

Section SortedStops.

Lemma insertSorted_perm (a : R) (l : list R) :
  Permutation (insertSorted a l) (a :: l).
Proof.
  induction l as [| b l IH]; simpl; [apply Permutation_refl |].
  destruct (Rle_dec a b); [apply Permutation_refl |].
  eapply Permutation_trans; [apply perm_skip, IH | apply perm_swap].
Qed.

Lemma sortAscending_perm (l : list R) : Permutation (sortAscending l) l.
Proof.
  induction l as [| a l IH]; simpl; [apply perm_nil |].
  eapply Permutation_trans; [apply insertSorted_perm | apply perm_skip, IH].
Qed.



Lemma sortedStops_In (gradient : Gradient) (s : R) :
  In s (sortedStops gradient) <-> In s (map fst gradient).
Proof.
  unfold sortedStops. split; apply Permutation_in;
    [apply sortAscending_perm | apply Permutation_sym, sortAscending_perm].
Qed.

Lemma sortedStops_nonempty (gradient : Gradient) :
  gradient <> [] -> sortedStops gradient <> [].
Proof.
  intros Hne E. apply (f_equal (@length R)) in E. unfold sortedStops in E.
  rewrite sortAscending_length in E. rewrite length_map in E.
  destruct gradient; [congruence | discriminate].
Qed.

Lemma stopColors_length (gradient : Gradient) :
  length (stopColors gradient) = length (sortedStops gradient).
Proof. unfold stopColors. apply length_map. Qed.




Lemma tableParam_le_one (i : nat) : (i < 256)%nat -> tableParam i <= 1.
Proof.
  intros Hi. unfold tableParam.
  assert (INR i <= INR 255) by (apply le_INR; lia).
  rewrite INR_255 in H. lra.
Qed.

Lemma gradientColor_inRange (gradient : Gradient) (s : R) :
  (forall kc, In kc gradient -> colorInRange (snd kc)) ->
  colorInRange (gradientColor gradient s).
Proof.
  induction gradient as [| [k c] gradient IH]; intros Hall; simpl.
  - unfold colorInRange. simpl. lia.
  - destruct (Req_dec_T k s).
    + apply (Hall (k, c)). left. reflexivity.
    + apply IH. intros kc Hkc. apply Hall. right. assumption.
Qed.

Lemma stopColors_inRange (gradient : Gradient) (k : Z) (c : Rgb) :
  (forall kc, In kc gradient -> colorInRange (snd kc)) ->
  index (stopColors gradient) k = Some c -> colorInRange c.
Proof.
  intros Hall Hc. apply index_In in Hc. unfold stopColors in Hc.
  apply in_map_iff in Hc as (s & <- & _).
  apply gradientColor_inRange. assumption.
Qed.

(** Interpolating between two byte values with a factor in [0, 1] gives a
    byte value. *)
Lemma mixChannel_byte (c0 c1 : Z) (q : R) :
  (0 <= c0 <= 255)%Z -> (0 <= c1 <= 255)%Z -> 0 <= q <= 1 ->
  byteValued (mixChannel c0 c1 (Fin q)).
Proof.
  intros H0 H1 Hq. unfold mixChannel. simpl.
  eexists. split; [reflexivity |].
  assert (B0 : 0 <= IZR c0 <= 255) by (split; apply IZR_le; lia).
  assert (B1 : 0 <= IZR c1 <= 255) by (split; apply IZR_le; lia).
  assert (Hx : 0 <= IZR c0 + (IZR c1 + - IZR c0) * q <= 255) by (split; nra).
  split.
  - apply Zfloor_lub. simpl. lra.
  - pose proof (Zfloor_bound (IZR c0 + (IZR c1 + - IZR c0) * q + 1 / 2)) as [Hb _].
    assert (Hlt : IZR (Zfloor (IZR c0 + (IZR c1 + - IZR c0) * q + 1 / 2))
                  < IZR 256) by (simpl; lra).
    apply lt_IZR in Hlt. lia.
Qed.


End SortedStops.

Section TableFacts.

Lemma table_entries (gradient : Gradient) :
  gradient <> [] ->
  exists grad,
    createGradientLookup gradient = Returned grad
    /\ length grad = 256%nat
    /\ (forall i, (i < 256)%nat ->
          nth_error grad i
          = Some (entryAt (sortedStops gradient) (stopColors gradient) i))
    /\ (forall entry, In entry grad ->
          exists i, (i < 256)%nat
            /\ entry = entryAt (sortedStops gradient) (stopColors gradient) i).
Proof.
  intros Hne. destruct (createGradientLookup_table gradient Hne) as [Heq _].
  eexists. split; [exact Heq |].
  split; [rewrite length_map, length_seq; reflexivity |]. split.
  - intros i Hi. apply nth_error_map_seq. assumption.
  - intros entry Hin. apply in_map_iff in Hin as (i & <- & Hi).
    apply in_seq in Hi. exists i. split; [lia | reflexivity].
Qed.



Lemma stopIndex_found (stops : list R) (t : R) :
  (0 <= findIndex (atOrAbove t) stops)%Z ->
  stopIndex stops t = findIndex (atOrAbove t) stops.
Proof.
  intros H. unfold stopIndex. fold (atOrAbove t).
  destruct (findIndex (atOrAbove t) stops =? -1)%Z eqn:E;
    [apply Z.eqb_eq in E; lia | reflexivity].
Qed.

Lemma findIndex_exists (stops : list R) (t s : R) :
  In s stops -> t <= s -> (0 <= findIndex (atOrAbove t) stops)%Z.
Proof.
  intros Hin Hts.
  destruct (findIndex_range (atOrAbove t) stops) as [Hm | Hr]; [| lia].
  pose proof (proj1 (findIndex_none _ _) Hm s Hin) as Hb.
  unfold atOrAbove in Hb. destruct (Rle_dec t s); [discriminate | contradiction].
Qed.

End TableFacts.

(** X8: [createGradientLookup] throws a [TypeError] on a gradient without
    stops, and on every other gradient it returns a table of exactly 256
    entries. *)
Theorem createGradientLookup_outcomes (gradient : Gradient) :
  (gradient = [] -> createGradientLookup gradient = Thrown TypeError)
  /\ (gradient <> [] ->
      exists grad,
        createGradientLookup gradient = Returned grad
        /\ length grad = 256%nat).
Proof.
  split.
  - intros ->. apply createGradientLookup_empty.
  - intros Hne. destruct (table_entries gradient Hne) as (grad & H1 & H2 & _).
    exists grad. split; assumption.
Qed.

Lemma createGradientLookup_outcomes_witness :
  createGradientLookup [] = Thrown TypeError
  /\ exists grad,
       createGradientLookup fullGradient = Returned grad
       /\ length grad = 256%nat.
Proof.
  split.
  - apply (createGradientLookup_outcomes []). reflexivity.
  - apply (createGradientLookup_outcomes fullGradient). discriminate.
Defined.




(** X11: when some stop is at 1 or above and every colour has its
    components in [0, 255], every component of every table entry is an
    integer in [0, 255]: nothing is extrapolated. *)
Theorem table_in_range_when_a_stop_reaches_one (gradient : Gradient) :
  (exists s, In s (map fst gradient) /\ 1 <= s) ->
  (forall kc, In kc gradient -> colorInRange (snd kc)) ->
  exists grad,
    createGradientLookup gradient = Returned grad
    /\ forall entry, In entry grad -> entryAll byteValued entry.
Proof.
  intros (s & Hs & Hs1) Hcolors.
  assert (Hne : gradient <> []) by (intros ->; destruct Hs).
  destruct (table_entries gradient Hne) as (grad & Hgrad & _ & _ & Hin).
  exists grad. split; [assumption |].
  intros entry Hentry. destruct (Hin entry Hentry) as (i & Hi & ->).
  pose proof (sortedStops_nonempty gradient Hne) as Hstops.
  pose proof (stopColors_length gradient) as Hlen.
  assert (Hbyte : forall c, colorInRange c -> entryAll byteValued (entryOfColor c)).
  { intros c (H0 & H1 & H2). unfold entryOfColor, entryAll, byteValued.
    repeat split; eexists; (split; [reflexivity | assumption]). }
  destruct (entryAt_cases _ _ Hstops Hlen i)
    as [(_ & c & Hc & ->) | (Hnz & s0 & s1 & c0 & c1 & Hs0 & Hs1' & Hc0 & Hc1 & ->)].
  - apply Hbyte. eapply stopColors_inRange; eassumption.
  - assert (Hfound : (0 <= findIndex (atOrAbove (tableParam i))
                            (sortedStops gradient))%Z).
    { apply (findIndex_exists _ _ s); [apply sortedStops_In; assumption |].
      pose proof (tableParam_le_one i Hi). lra. }
    rewrite (stopIndex_found _ _ Hfound) in *.
    assert (Hge : (1 <= findIndex (atOrAbove (tableParam i))
                         (sortedStops gradient))%Z) by lia.
    pose proof (findIndex_found _ _ _ Hfound Hs1') as Hp1.
    pose proof (findIndex_before _ _ _ Hge Hs0) as Hp0.
    unfold atOrAbove in Hp0, Hp1.
    destruct (Rle_dec (tableParam i) s1); [| discriminate].
    destruct (Rle_dec (tableParam i) s0); [discriminate |].
    pose proof (stopColors_inRange _ _ _ Hcolors Hc0) as (A0 & A1 & A2).
    pose proof (stopColors_inRange _ _ _ Hcolors Hc1) as (B0 & B1 & B2).
    cbv zeta. simpl JS.sub. simpl JS.div.
    destruct (Req_dec_T (s1 + - s0) 0); [lra |].
    assert (Hq : 0 <= (tableParam i + - s0) / (s1 + - s0) <= 1).
    { split.
      - apply Rmult_le_pos; [lra | left; apply Rinv_0_lt_compat; lra].
      - apply Rmult_le_reg_r with (r := s1 + - s0); [lra |].
        unfold Rdiv. rewrite Rmult_assoc, Rinv_l by lra. lra. }
    unfold entryAll. repeat split; apply mixChannel_byte; assumption.
Qed.

Lemma table_in_range_when_a_stop_reaches_one_witness :
  exists grad,
    createGradientLookup fullGradient = Returned grad
    /\ forall entry, In entry grad -> entryAll byteValued entry.
Proof.
  apply (table_in_range_when_a_stop_reaches_one fullGradient).
  - exists 1. split; [right; left; reflexivity | lra].
  - intros kc [<- | [<- | []]]; unfold colorInRange; simpl; lia.
Defined.



(** X13: when the stop positions are pairwise distinct, every component of
    every table entry is a finite integer: the interpolation never divides
    by zero, so no entry holds [NaN] or an infinity. *)
Theorem distinct_stops_give_integer_table (gradient : Gradient) :
  gradient <> [] -> NoDup (map fst gradient) ->
  exists grad,
    createGradientLookup gradient = Returned grad
    /\ forall entry, In entry grad -> entryAll integerValued entry.
Proof.
  intros Hne Hnodup.
  destruct (table_entries gradient Hne) as (grad & Hgrad & _ & _ & Hin).
  exists grad. split; [assumption |].
  intros entry Hentry. destruct (Hin entry Hentry) as (i & Hi & ->).
  pose proof (sortedStops_nonempty gradient Hne) as Hstops.
  pose proof (stopColors_length gradient) as Hlen.
  assert (Hnd : NoDup (sortedStops gradient)).
  { apply (Permutation_NoDup (Permutation_sym (sortAscending_perm _))).
    assumption. }
  destruct (entryAt_cases _ _ Hstops Hlen i)
    as [(_ & c & Hc & ->) | (Hnz & s0 & s1 & c0 & c1 & Hs0 & Hs1 & Hc0 & Hc1 & ->)].
  - unfold entryAll, integerValued. repeat split; eexists; reflexivity.
  - assert (Hdiff : s1 <> s0).
    { intros ->. unfold index in Hs0, Hs1.
      pose proof (stopIndex_range _ (tableParam i) Hstops) as Hr.
      destruct (stopIndex (sortedStops gradient) (tableParam i) - 1 <? 0)%Z eqn:E0;
        [discriminate |].
      destruct (stopIndex (sortedStops gradient) (tableParam i) <? 0)%Z eqn:E1;
        [discriminate |].
      apply Z.ltb_ge in E0.
      assert (Heq : Z.to_nat (stopIndex (sortedStops gradient) (tableParam i) - 1)
                    = Z.to_nat (stopIndex (sortedStops gradient) (tableParam i))).
      { apply (proj1 (NoDup_nth_error _) Hnd); [lia | congruence]. }
      lia. }
    cbv zeta. simpl JS.sub. simpl JS.div.
    destruct (Req_dec_T (s1 + - s0) 0); [lra |].
    unfold entryAll, integerValued, mixChannel. simpl.
    repeat split; eexists; reflexivity.
Qed.

Lemma distinct_stops_give_integer_table_witness :
  exists grad,
    createGradientLookup halfGradient = Returned grad
    /\ forall entry, In entry grad -> entryAll integerValued entry.
Proof.
  apply (distinct_stops_give_integer_table halfGradient).
  - discriminate.
  - simpl. constructor.
    + intros [H | []]. lra.
    + constructor; [intros [] | constructor].
Defined.

(* ===================================================================== *)
(** ** The value, index and feathering of a cell: further properties *)
(* ===================================================================== *)

Section CellFacts.

Lemma maxValue_attained (points : list Point) :
  points <> [] -> exists p, In p points /\ pt_val p = maxValue points.
Proof.
  intros Hne. unfold maxValue.
  destruct points as [| q points]; [congruence |]. clear Hne.
  assert (H : forall (l : list Point) (r0 : R),
            fold_right (fun p m => Rmax (pt_val p) m) r0 l = r0
            \/ exists p, In p l
                 /\ pt_val p = fold_right (fun p m => Rmax (pt_val p) m) r0 l).
  { induction l as [| a l IH]; intros r0; simpl; [left; reflexivity |].
    destruct (Rle_dec (pt_val a) (fold_right (fun p m => Rmax (pt_val p) m) r0 l))
      as [Hle | Hgt].
    - rewrite Rmax_right by assumption.
      destruct (IH r0) as [-> | (p & Hp & Hv)]; [left; reflexivity |].
      right. exists p. split; [right; assumption | assumption].
    - rewrite Rmax_left by lra. right. exists a. split; [left |]; reflexivity. }
  destruct (H (q :: points) (pt_val q)) as [Heq | (p & Hp & Hv)].
  - exists q. split; [left; reflexivity | symmetry; assumption].
  - exists p. split; assumption.
Qed.

Lemma featherAlpha_fin (m : R) :
  DirectDraw.featherAlpha (Fin m) = Fin (specAlpha 100000 m).
Proof.
  unfold DirectDraw.featherAlpha, DirectDraw.FADE_DISTANCE, specAlpha. simpl.
  destruct (Rlt_dec 100000 m); [| reflexivity].
  destruct (Req_dec_T 100000 0); [lra |]. simpl. reflexivity.
Qed.

Lemma specAlpha_range (m : R) : 0 <= specAlpha 100000 m <= 1.
Proof.
  unfold specAlpha. destruct (Rlt_dec 100000 m); [| lra].
  unfold Rmax. destruct (Rle_dec 0 (1 - (m - 100000) / 100000)); lra.
Qed.

Lemma specAlpha_far (m : R) : 200000 <= m -> specAlpha 100000 m = 0.
Proof.
  intros Hm. unfold specAlpha. destruct (Rlt_dec 100000 m); [| lra].
  apply Rmax_left. lra.
Qed.

(** The [minDist] of a cell is [Infinity] or a finite number. *)
Lemma cellMinDist_shape (latlng : LatLng) (e : R) (points : list Point) :
  (points = [] /\ cellMinDist latlng e points = PInf)
  \/ exists x, cellMinDist latlng e points = Fin x
       /\ (forall p, In p points -> x <= distTo latlng p)
       /\ exists p, In p points /\ x = distTo latlng p.
Proof.
  unfold cellMinDist, accumulateAll, accInit. rewrite accumulate_fold.
  cbn [minDist].
  destruct points as [| q points]; [left; split; reflexivity |]. right.
  assert (H : forall (l : list Point) (y : R) (p0 : Point),
            y = distTo latlng p0 ->
            exists x,
              fold_left (fun m p => JS.min m (Fin (distTo latlng p))) l (Fin y)
              = Fin x
              /\ x <= y /\ (forall p, In p l -> x <= distTo latlng p)
              /\ exists p, (p = p0 \/ In p l) /\ x = distTo latlng p).
  { induction l as [| a l IH]; intros y p0 Hy; simpl.
    - exists y. repeat split; [lra | intros p [] |].
      exists p0. split; [left; reflexivity | assumption].
    - destruct (Rle_dec y (distTo latlng a)) as [Hle | Hgt].
      + rewrite Rmin_left by assumption.
        destruct (IH y p0 Hy) as (x & Hx & Hxy & Hall & p & Hp & Hxp).
        exists x. repeat split; try assumption.
        * intros p' [<- | Hp']; [lra | apply Hall; assumption].
        * exists p. split; [destruct Hp; [left | right; right]; assumption
                           | assumption].
      + rewrite Rmin_right by lra.
        destruct (IH (distTo latlng a) a eq_refl)
          as (x & Hx & Hxy & Hall & p & Hp & Hxp).
        exists x. repeat split; try assumption; try lra.
        * intros p' [<- | Hp']; [lra | apply Hall; assumption].
        * exists p. split; [| assumption].
          destruct Hp as [-> | Hp]; right; [left; reflexivity | right; assumption]. }
  simpl fold_left.
  destruct (H points (distTo latlng q) q eq_refl)
    as (x & Hx & Hxy & Hall & p & Hp & Hxp).
  exists x. split; [exact Hx |]. split.
  - intros p' [<- | Hp']; [lra | apply Hall; assumption].
  - exists p. split; [| assumption].
    destruct Hp as [-> | Hp]; [left; reflexivity | right; assumption].
Qed.

(** The feathering factor of a cell is a number in [0, 1]. *)
Lemma cell_alpha_range (latlng : LatLng) (e : R) (points : list Point) :
  exists a, DirectDraw.featherAlpha (cellMinDist latlng e points) = Fin a
            /\ 0 <= a <= 1.
Proof.
  destruct (cellMinDist_shape latlng e points) as [[_ ->] | (x & -> & _)].
  - exists 0. split; [apply featherAlpha_no_points | lra].
  - exists (specAlpha 100000 x). split; [apply featherAlpha_fin | apply specAlpha_range].
Qed.

Lemma blend_same (b : Z) (a : R) :
  DirectDraw.blend (Fin (IZR b)) (Fin (IZR b)) (Fin a) = Fin (IZR b).
Proof.
  unfold DirectDraw.blend. simpl. apply round_eq.
  replace (IZR b * a + IZR b * (1 + - a)) with (IZR b) by ring. lra.
Qed.

Lemma drawCells_throws (width height r : nat) (points : list Point) (e max : R)
  (grad : list Entry) (bg : Entry) (bounds : Bounds) (data : list Z) :
  (forall latlng,
     DirectDraw.cellPixel points e max grad bg latlng = Thrown TypeError) ->
  (0 < width)%nat -> (0 < height)%nat ->
  DirectDraw.drawCells width height r points e max grad bg bounds data
  = Thrown TypeError.
Proof.
  intros Hthrows Hw Hh. unfold DirectDraw.drawCells.
  destruct (r =? 0)%nat eqn:Er.
  - destruct (height =? 0)%nat eqn:Eh; [apply Nat.eqb_eq in Eh; lia |].
    destruct (width =? 0)%nat eqn:Ew; [apply Nat.eqb_eq in Ew; lia |].
    unfold DirectDraw.cellStep. rewrite Hthrows. reflexivity.
  - apply Nat.eqb_neq in Er.
    pose proof (ceilDiv_pos width r Hw ltac:(lia)) as Hx.
    pose proof (ceilDiv_pos height r Hh ltac:(lia)) as Hy.
    destruct (ceilDiv width r) as [| nx]; [lia |].
    destruct (ceilDiv height r) as [| ny]; [lia |].
    cbn [seq forM]. unfold DirectDraw.cellStep at 1.
    rewrite Hthrows. reflexivity.
Qed.

Lemma cellPixel_max_zero_background
  (points : list Point) (e : R) (grad : list Entry) (b0 b1 b2 : Z)
  (latlng : LatLng) :
  index grad 0 = Some (Fin (IZR b0), Fin (IZR b1), Fin (IZR b2)) ->
  exists a,
    DirectDraw.featherAlpha (cellMinDist latlng e points) = Fin a
    /\ 0 <= a <= 1
    /\ DirectDraw.cellPixel points e 0 grad
         (Fin (IZR b0), Fin (IZR b1), Fin (IZR b2)) latlng
       = Returned {| px_r := Fin (IZR b0); px_g := Fin (IZR b1);
                     px_b := Fin (IZR b2);
                     px_a := JS.round (Fin (255 * a)) |}.
Proof.
  intros Hbg. destruct (cell_alpha_range latlng e points) as (a & Ha & Hrange).
  exists a. split; [assumption |]. split; [assumption |].
  unfold DirectDraw.cellPixel.
  fold (cellValue latlng e points). fold (cellMinDist latlng e points).
  rewrite gradientIndex_max_zero, Ha, (tableGet_int grad 0), Hbg.
  rewrite !blend_same. reflexivity.
Qed.

Lemma farPoints_distance :
  200000
  <= distTo origin {| pt_lat := 0; pt_lng := 2; pt_val := 5 |}.
Proof.
  unfold distTo; cbn [pt_lat pt_lng]. rewrite haversine_equator by lra.
  pose proof PI2_3_2. lra.
Qed.

End CellFacts.



(** X15: for a positive [max] the gradient index is an integer that does
    not decrease when the interpolated value grows, and it is 255 for every
    value at or above [max]. *)
Theorem gradientIndex_monotone_and_saturating (x y max : R) :
  0 < max -> x <= y ->
  exists kx ky : Z,
    DirectDraw.gradientIndex (DirectDraw.clampToMax (Fin x) max) max
    = Fin (IZR kx)
    /\ DirectDraw.gradientIndex (DirectDraw.clampToMax (Fin y) max) max
       = Fin (IZR ky)
    /\ (kx <= ky <= 255)%Z
    /\ (max <= x -> kx = 255%Z).
Proof.
  intros Hm Hxy. rewrite !gradientIndex_fin by lra.
  eexists; eexists. split; [reflexivity |]. split; [reflexivity |].
  assert (Hinv : 0 < / max) by (apply Rinv_0_lt_compat; assumption).
  assert (Hmin : Rmin x max <= Rmin y max).
  { apply Rmin_glb; [eapply Rle_trans; [apply Rmin_l | assumption] | apply Rmin_r]. }
  assert (Hq : Rmin x max / max <= Rmin y max / max)
    by (apply Rmult_le_compat_r; lra).
  assert (Hy1 : Rmin y max / max <= 1).
  { apply Rmult_le_reg_r with (r := max); [assumption |].
    unfold Rdiv. rewrite Rmult_assoc, Rinv_l by lra.
    pose proof (Rmin_r y max). lra. }
  split; [split |].
  - apply Zfloor_le. lra.
  - pose proof (Zfloor_bound (Rmin y max / max * 255 + 1 / 2)) as [Hb _].
    assert (Hlt : IZR (Zfloor (Rmin y max / max * 255 + 1 / 2)) < IZR 256)
      by (simpl; lra).
    apply lt_IZR in Hlt. lia.
  - intros Hsat. apply Zfloor_eq. rewrite Rmin_right by assumption.
    replace (max / max) with 1 by (field; lra). simpl. lra.
Qed.

Lemma gradientIndex_monotone_and_saturating_witness :
  exists kx ky : Z,
    DirectDraw.gradientIndex (DirectDraw.clampToMax (Fin 120) 100) 100
    = Fin (IZR kx)
    /\ DirectDraw.gradientIndex (DirectDraw.clampToMax (Fin 300) 100) 100
       = Fin (IZR ky)
    /\ (kx <= ky <= 255)%Z
    /\ (100 <= 120 -> kx = 255%Z).
Proof.
  apply (gradientIndex_monotone_and_saturating 120 300 100); lra.
Defined.

(** X16: with [max = 0] and an integer background entry [grad[0]] every
    cell of the direct-draw variant is drawn in the background colour, for
    any samples (even none) and any exponent; only its alpha varies, the
    rounded feathering factor, which lies in [0, 1]. *)
Theorem max_zero_draws_background
  (points : list Point) (e : R) (grad : list Entry) (b0 b1 b2 : Z)
  (latlng : LatLng) :
  index grad 0 = Some (Fin (IZR b0), Fin (IZR b1), Fin (IZR b2)) ->
  exists a,
    DirectDraw.featherAlpha (cellMinDist latlng e points) = Fin a
    /\ 0 <= a <= 1
    /\ DirectDraw.cellPixel points e 0 grad
         (Fin (IZR b0), Fin (IZR b1), Fin (IZR b2)) latlng
       = Returned {| px_r := Fin (IZR b0); px_g := Fin (IZR b1);
                     px_b := Fin (IZR b2);
                     px_a := JS.round (Fin (255 * a)) |}.
Proof. exact (cellPixel_max_zero_background points e grad b0 b1 b2 latlng). Qed.

Lemma max_zero_draws_background_witness :
  exists a,
    DirectDraw.featherAlpha (cellMinDist origin 2 equalPoints) = Fin a
    /\ 0 <= a <= 1
    /\ DirectDraw.cellPixel equalPoints 2 0 blackTable
         (Fin (IZR 0), Fin (IZR 0), Fin (IZR 0)) origin
       = Returned {| px_r := Fin (IZR 0); px_g := Fin (IZR 0);
                     px_b := Fin (IZR 0);
                     px_a := JS.round (Fin (255 * a)) |}.
Proof.
  apply (max_zero_draws_background equalPoints 2 blackTable 0 0 0 origin).
  reflexivity.
Defined.

(** X17: a cell whose centre is at least 200000 meters from every sample
    is fully faded: when its table lookup succeeds and the table holds
    integers, the pixel is the background colour with alpha 0. *)
Theorem far_cell_is_transparent_background
  (points : list Point) (e max : R) (grad : list Entry) (bg : Entry)
  (latlng : LatLng) (c : Pixel) :
  (forall p, In p points -> 200000 <= distTo latlng p) ->
  (forall entry, In entry grad -> entryAll integerValued entry) ->
  entryAll integerValued bg ->
  DirectDraw.cellPixel points e max grad bg latlng = Returned c ->
  DirectDraw.featherAlpha (cellMinDist latlng e points) = Fin 0
  /\ c = {| px_r := fst (fst bg); px_g := snd (fst bg); px_b := snd bg;
            px_a := Fin 0 |}.
Proof.
  intros Hfar Hgrad Hbg Hret.
  assert (Halpha : DirectDraw.featherAlpha (cellMinDist latlng e points) = Fin 0).
  { destruct (cellMinDist_shape latlng e points)
      as [[_ ->] | (x & -> & _ & p & Hp & Hx)].
    - apply featherAlpha_no_points.
    - rewrite featherAlpha_fin, specAlpha_far; [reflexivity |].
      rewrite Hx. apply Hfar. assumption. }
  split; [assumption |].
  unfold DirectDraw.cellPixel in Hret.
  fold (cellMinDist latlng e points) in Hret. rewrite Halpha in Hret.
  destruct (tableGet grad _) as [[[ic0 ic1] ic2] |] eqn:Hget; [| discriminate].
  assert (Hin : In (ic0, ic1, ic2) grad).
  { destruct (DirectDraw.gradientIndex _ _) as [x | | |]; try discriminate.
    simpl in Hget. destruct (Req_dec_T (IZR (Zfloor x)) x); [| discriminate].
    eapply index_In; eassumption. }
  destruct (Hgrad _ Hin) as ((i0 & ->) & (i1 & ->) & (i2 & ->)).
  destruct bg as [[g0 g1] g2].
  destruct Hbg as ((z0 & ->) & (z1 & ->) & (z2 & ->)).
  rewrite !blend_alpha_zero, alpha_byte_zero in Hret.
  injection Hret as <-. reflexivity.
Qed.

Lemma far_cell_is_transparent_background_witness :
  exists c,
    DirectDraw.cellPixel farPoints 2 0 blackTable (Fin 0, Fin 0, Fin 0) origin
    = Returned c
    /\ DirectDraw.featherAlpha (cellMinDist origin 2 farPoints) = Fin 0
    /\ c = {| px_r := Fin 0; px_g := Fin 0; px_b := Fin 0; px_a := Fin 0 |}.
Proof.
  destruct (cellPixel_max_zero_background farPoints 2 blackTable 0 0 0 origin
              eq_refl) as (a & _ & _ & Hret).
  eexists. split; [exact Hret |].
  apply (far_cell_is_transparent_background farPoints 2 0 blackTable
           (Fin 0, Fin 0, Fin 0) origin).
  - intros p [<- | []]. apply farPoints_distance.
  - intros entry Hin. apply repeat_spec in Hin. subst entry.
    repeat split; exists 0%Z; reflexivity.
  - repeat split; exists 0%Z; reflexivity.
  - exact Hret.
Defined.

(* ===================================================================== *)
(** ** When the direct-draw render returns and when it throws *)
(* ===================================================================== *)

Section RenderOutcome.

Lemma cellValue_bounds (latlng : LatLng) (e : R) (points : list Point) :
  points <> [] -> 0 <= e ->
  exists v, cellValue latlng e points = Fin v
            /\ minValue points <= v <= maxValue points.
Proof.
  intros Hne He.
  assert (Hor : 0 <= e \/ (exists p, In p points /\ distTo latlng p <> 0))
    by (left; assumption).
  pose proof (total_weight_pos latlng e points Hne Hor) as Hpos.
  eexists. split; [apply cellValue_quotient; assumption |].
  set (w := pointWeight latlng e) in *.
  destruct (weighted_sum_bounds w (minValue points) (maxValue points) points)
    as [Hlo Hhi].
  - intros p _. apply termWeight_nonneg, distTo_nonneg.
  - intros p Hp. split; [apply minValue_le | apply maxValue_ge]; assumption.
  - split.
    + apply Rmult_le_reg_r with (r := sumOver w points); [assumption |].
      unfold Rdiv. rewrite Rmult_assoc, Rinv_l by lra. lra.
    + apply Rmult_le_reg_r with (r := sumOver w points); [assumption |].
      unfold Rdiv. rewrite Rmult_assoc, Rinv_l by lra. lra.
Qed.

Lemma cellPixel_negative_throws (points : list Point) (e max : R)
  (grad : list Entry) (bg : Entry) (latlng : LatLng) :
  0 < max -> 0 <= e -> points <> [] ->
  (forall p, In p points -> pt_val p < - max / 510) ->
  DirectDraw.cellPixel points e max grad bg latlng = Thrown TypeError.
Proof.
  intros Hm He Hne Hneg.
  destruct (cellValue_bounds latlng e points Hne He) as (v & Hv & _ & Hhi).
  destruct (maxValue_attained points Hne) as (p & Hp & Hpv).
  assert (Hvneg : v < - max / 510) by (specialize (Hneg p Hp); lra).
  unfold DirectDraw.cellPixel. fold (cellValue latlng e points).
  rewrite Hv, gradientIndex_fin by lra.
  rewrite tableGet_int, index_negative; [reflexivity |].
  rewrite Rmin_left by lra.
  assert (Hq : v / max * 255 + 1 / 2 < 0).
  { assert (Hinv : 0 < / max) by (apply Rinv_0_lt_compat; assumption).
    assert (Hvm : v / max < - (1 / 510)).
    { apply Rmult_lt_reg_r with (r := max); [assumption |].
      unfold Rdiv at 1. rewrite Rmult_assoc, Rinv_l by lra. lra. }
    lra. }
  pose proof (Zfloor_bound (v / max * 255 + 1 / 2)) as [Hb _].
  assert (Hlt : IZR (Zfloor (v / max * 255 + 1 / 2)) < IZR 0) by (simpl; lra).
  apply lt_IZR in Hlt. assumption.
Qed.

End RenderOutcome.



(** X19: for a positive [max], an exponent [>= 0] and an image of at least
    one pixel, when every sample value is below [-max / 510] the
    interpolated value rounds to a negative table index and
    [interpolateIDW_directdraw] throws a [TypeError], for every gradient
    and cell size. *)
Theorem directdraw_throws_on_negative_samples
  (points : list Point) (options : Options.t) (fresh : list Z) :
  (0 < Options.width options)%nat -> (0 < Options.height options)%nat ->
  0 < orDefault (Options.max options) 1 ->
  0 <= orDefault (Options.exp options) 2 ->
  points <> [] ->
  (forall p, In p points -> pt_val p < - orDefault (Options.max options) 1 / 510) ->
  DirectDraw.interpolateIDW_directdraw points options fresh = Thrown TypeError.
Proof.
  intros Hw Hh Hm He Hne Hneg.
  unfold DirectDraw.interpolateIDW_directdraw.
  destruct (createGradientLookup_outcome (Options.gradient options))
    as [-> | (grad & bg & -> & Hbg)]; [reflexivity |].
  simpl. rewrite Hbg. apply drawCells_throws; try assumption.
  intros latlng. apply cellPixel_negative_throws; assumption.
Qed.

Lemma directdraw_throws_on_negative_samples_witness :
  DirectDraw.interpolateIDW_directdraw negativePoint tinyOptions [0; 0; 0; 0]%Z
  = Thrown TypeError.
Proof.
  apply (directdraw_throws_on_negative_samples negativePoint tinyOptions
           [0; 0; 0; 0]%Z).
  - simpl. lia.
  - simpl. lia.
  - simpl. lra.
  - simpl. lra.
  - discriminate.
  - intros p [<- | []]. simpl. lra.
Defined.

(* ===================================================================== *)
(** ** What the cell loops leave in the buffer *)
(* ===================================================================== *)

Section BufferContents.

Lemma holdsOn_weaken (f : nat -> Z) (P Q : nat -> Prop) (d : list Z) :
  (forall k, Q k -> P k) -> holdsOn f P d -> holdsOn f Q d.
Proof. intros HQP H k Hk. apply H, HQP, Hk. Qed.

Lemma holdsOn_write (f : nat -> Z) (P : nat -> Prop) (d : list Z)
  (idx : nat) (v : Z) :
  f idx = v -> holdsOn f P d ->
  holdsOn f (fun k => P k \/ k = idx) (write d idx v).
Proof.
  intros Hv H k Hk Hlen. rewrite write_length in Hlen.
  destruct (Nat.eq_dec k idx) as [-> | Hne].
  - rewrite nth_write_same by assumption. symmetry. assumption.
  - rewrite nth_write_other by assumption.
    destruct Hk as [Hk | Hk]; [apply H; assumption | contradiction].
Qed.

(** A buffer index determines its pixel and channel. *)
Lemma pixel_index_decode (width px py ch : nat) :
  (px < width)%nat -> (ch < 4)%nat ->
  (((py * width + px) * 4 + ch) / 4 mod width = px
   /\ ((py * width + px) * 4 + ch) / 4 / width = py
   /\ ((py * width + px) * 4 + ch) mod 4 = ch)%nat.
Proof.
  intros Hpx Hch.
  assert (H4 : (((py * width + px) * 4 + ch) / 4 = py * width + px)%nat).
  { rewrite Nat.div_add_l by lia. rewrite (Nat.div_small ch 4) by assumption. lia. }
  rewrite H4. repeat split.
  - rewrite Nat.add_comm, Nat.Div0.mod_add. apply Nat.mod_small. assumption.
  - rewrite Nat.div_add_l by lia. rewrite (Nat.div_small px width) by assumption.
    lia.
  - rewrite Nat.add_comm, Nat.Div0.mod_add. apply Nat.mod_small. assumption.
Qed.

Lemma expectedByte_at (width : nat) (pix : nat -> nat -> Pixel)
  (px py ch : nat) :
  (px < width)%nat -> (ch < 4)%nat ->
  expectedByte width pix ((py * width + px) * 4 + ch)
  = channelByte (pix px py) ch.
Proof.
  intros Hpx Hch. unfold expectedByte.
  destruct (pixel_index_decode width px py ch Hpx Hch) as (-> & -> & ->).
  reflexivity.
Qed.

Lemma holdsOn_setPixel (width : nat) (pix : nat -> nat -> Pixel)
  (P : nat -> Prop) (d : list Z) (px py : nat) (c : Pixel) :
  (px < width)%nat -> pix px py = c ->
  holdsOn (expectedByte width pix) P d ->
  holdsOn (expectedByte width pix)
    (fun k => P k \/ pixelAt width px py k) (setPixel width px py c d).
Proof.
  intros Hpx Hc H. unfold setPixel.
  eapply holdsOn_weaken with
    (P := fun k => (((P k \/ k = ((py * width + px) * 4)%nat)
                     \/ k = ((py * width + px) * 4 + 1)%nat)
                    \/ k = ((py * width + px) * 4 + 2)%nat)
                   \/ k = ((py * width + px) * 4 + 3)%nat).
  - intros k [Hk | (ch & Hch & ->)]; [tauto |].
    assert (ch = 0 \/ ch = 1 \/ ch = 2 \/ ch = 3)%nat as [-> | [-> | [-> | ->]]]
      by lia.
    + left. left. left. right. lia.
    + left. left. right. reflexivity.
    + left. right. reflexivity.
    + right. reflexivity.
  - apply holdsOn_write;
      [rewrite expectedByte_at by (assumption || lia); rewrite Hc; reflexivity |].
    apply holdsOn_write;
      [rewrite expectedByte_at by (assumption || lia); rewrite Hc; reflexivity |].
    apply holdsOn_write;
      [rewrite expectedByte_at by (assumption || lia); rewrite Hc; reflexivity |].
    apply holdsOn_write; [| assumption].
    replace ((py * width + px) * 4)%nat with ((py * width + px) * 4 + 0)%nat by lia.
    rewrite expectedByte_at by (assumption || lia). rewrite Hc. reflexivity.
Qed.

Lemma fold_left_holds {A : Type} (f : nat -> Z) (step : list Z -> A -> list Z)
  (W : A -> nat -> Prop) (l : list A) :
  (forall a, In a l -> forall P d, holdsOn f P d ->
     holdsOn f (fun k => P k \/ W a k) (step d a)) ->
  forall P d, holdsOn f P d ->
    holdsOn f (fun k => P k \/ exists a, In a l /\ W a k) (fold_left step l d).
Proof.
  induction l as [| a l IH]; intros Hstep P d H; simpl.
  - eapply holdsOn_weaken; [| exact H]. intros k [Hk | (a & [] & _)]. assumption.
  - eapply holdsOn_weaken;
      [| apply IH;
         [intros b Hb; apply Hstep; right; assumption
         | apply (Hstep a (or_introl eq_refl)); exact H]].
    intros k [Hk | (b & [<- | Hb] & Hw)].
    + left. left. assumption.
    + left. right. assumption.
    + right. exists b. split; assumption.
Qed.

Lemma holdsOn_fillCell (width height r x y : nat)
  (pix : nat -> nat -> Pixel) (P : nat -> Prop) (d : list Z) (c : Pixel) :
  (forall dx dy, (dx < r)%nat -> (dy < r)%nat ->
     (x + dx < width)%nat -> (y + dy < height)%nat ->
     pix (x + dx)%nat (y + dy)%nat = c) ->
  holdsOn (expectedByte width pix) P d ->
  holdsOn (expectedByte width pix)
    (fun k => P k \/ cellAt width height r x y k)
    (fillCell width height r x y c d).
Proof.
  intros Hpix H. unfold fillCell.
  eapply holdsOn_weaken;
    [| apply (fold_left_holds _ _
                (fun dy k => exists dx, (dx < r)%nat /\ (x + dx < width)%nat
                                        /\ (y + dy < height)%nat
                                        /\ pixelAt width (x + dx) (y + dy) k));
       [| exact H]].
  - intros k [Hk | (dx & dy & Hdx & Hdy & Hx & Hy & Hp)]; [left; assumption |].
    right. exists dy. split; [apply in_seq; lia |]. exists dx. tauto.
  - intros dy Hdy Q e Hq. apply in_seq in Hdy.
    eapply holdsOn_weaken;
      [| apply (fold_left_holds _ _
                  (fun dx k => (x + dx < width)%nat /\ (y + dy < height)%nat
                               /\ pixelAt width (x + dx) (y + dy) k));
         [| exact Hq]].
    + intros k [Hk | (dx & Hdx & Hx & Hy & Hp)]; [left; assumption |].
      right. exists dx. split; [apply in_seq; lia | tauto].
    + intros dx Hdx Q' e' Hq'. apply in_seq in Hdx. cbv zeta.
      destruct ((x + dx <? width)%nat && (y + dy <? height)%nat) eqn:Eguard.
      * apply andb_true_iff in Eguard as [Ex Ey].
        apply Nat.ltb_lt in Ex. apply Nat.ltb_lt in Ey.
        eapply holdsOn_weaken;
          [| apply holdsOn_setPixel;
             [exact Ex | apply Hpix; lia | exact Hq']].
        intros k [Hk | (_ & _ & Hp)]; [left | right]; assumption.
      * eapply holdsOn_weaken; [| exact Hq'].
        intros k [Hk | (Hx & Hy & _)]; [assumption |].
        apply andb_false_iff in Eguard as [E | E]; apply Nat.ltb_ge in E; lia.
Qed.

Lemma forM_holds {A : Type} (f : nat -> Z)
  (body : list Z -> A -> outcome (list Z)) (W : A -> nat -> Prop) (l : list A) :
  (forall a, In a l -> forall P d d', holdsOn f P d ->
     body d a = Returned d' -> holdsOn f (fun k => P k \/ W a k) d') ->
  forall P d d', holdsOn f P d -> forM body l d = Returned d' ->
    holdsOn f (fun k => P k \/ exists a, In a l /\ W a k) d'.
Proof.
  induction l as [| a l IH]; intros Hstep P d d' H Hret; simpl in Hret.
  - injection Hret as <-. eapply holdsOn_weaken; [| exact H].
    intros k [Hk | (a & [] & _)]. assumption.
  - destruct (body d a) as [d1 | |] eqn:E; simpl in Hret; try discriminate.
    eapply holdsOn_weaken;
      [| eapply IH;
         [intros b Hb; apply Hstep; right; assumption
         | eapply (Hstep a (or_introl eq_refl)); [exact H | exact E]
         | exact Hret]].
    intros k [Hk | (b & [<- | Hb] & Hw)].
    + left. left. assumption.
    + left. right. assumption.
    + right. exists b. split; assumption.
Qed.

(** When a loop returns, each of its iterations returned. *)
Lemma forM_each_returned {A S : Type} (body : S -> A -> outcome S)
  (l : list A) (s s' : S) (a : A) :
  forM body l s = Returned s' -> In a l ->
  exists s1 s2, body s1 a = Returned s2.
Proof.
  revert s. induction l as [| b l IH]; intros s Hret Hin; [destruct Hin |].
  simpl in Hret. destruct (body s b) as [s1 | |] eqn:E; simpl in Hret;
    try discriminate.
  destruct Hin as [<- | Hin]; [exists s, s1; assumption |].
  eapply IH; eassumption.
Qed.

Variable width height r : nat.
Variable colour : nat -> nat -> outcome Pixel.
Hypothesis r_positive : (1 <= r)%nat.

Lemma cell_of_pixel (i j dx dy : nat) :
  (dx < r)%nat -> (dy < r)%nat ->
  ((j * r + dx) / r = j /\ (i * r + dy) / r = i)%nat.
Proof.
  intros Hdx Hdy. split.
  - rewrite Nat.div_add_l by lia. rewrite (Nat.div_small dx r) by assumption. lia.
  - rewrite Nat.div_add_l by lia. rewrite (Nat.div_small dy r) by assumption. lia.
Qed.

(** The nested cell loops leave in every pixel the colour of its cell, and
    they return only if the colour of every cell was computed. *)
Lemma cell_loops_contents (nX nY : nat) (d d' : list Z) :
  nX = ceilDiv width r -> nY = ceilDiv height r ->
  forM (fun d i =>
    forM (fun d j => cellBody width height r colour i j d) (seq 0 nX) d)
    (seq 0 nY) d
  = Returned d' ->
  holdsOn (expectedByte width (cellPixelOf r colour)) (imageAt width height) d'
  /\ length d' = length d
  /\ forall i j, (i < nY)%nat -> (j < nX)%nat ->
       exists c, colour i j = Returned c.
Proof.
  intros HnX HnY Hret. split; [| split].
  - eapply holdsOn_weaken;
      [| eapply (forM_holds _ _
                   (fun i k => exists j, In j (seq 0 nX)
                                 /\ cellAt width height r (j * r) (i * r) k))
           with (P := fun _ => False); [| | exact Hret]].
    + intros k Hk. right. subst nX nY. apply cells_cover; assumption.
    + intros i Hi P e e' He Hinner.
      eapply (forM_holds _ _
                (fun j k => cellAt width height r (j * r) (i * r) k));
        [| exact He | exact Hinner].
      intros j Hj Q f f' Hf Hbody. unfold cellBody in Hbody.
      destruct (colour i j) as [c | |] eqn:Ec; simpl in Hbody; try discriminate.
      injection Hbody as <-. apply holdsOn_fillCell; [| assumption].
      intros dx dy Hdx Hdy _ _. unfold cellPixelOf.
      destruct (cell_of_pixel i j dx dy Hdx Hdy) as [-> ->]. rewrite Ec.
      reflexivity.
    + intros k [].
  - revert Hret. apply forM_length. intros e i e'. apply forM_length.
    intros f j f'. unfold cellBody.
    destruct (colour i j); simpl; try discriminate.
    intros H; injection H as <-. apply fillCell_length.
  - intros i j Hi Hj.
    destruct (forM_each_returned _ _ _ _ i Hret) as (e1 & e2 & Hrow);
      [apply in_seq; lia |].
    destruct (forM_each_returned _ _ _ _ j Hrow) as (f1 & f2 & Hcell);
      [apply in_seq; lia |].
    unfold cellBody in Hcell. destruct (colour i j) as [c | |]; try discriminate.
    exists c. reflexivity.
Qed.

(** The four bytes of a pixel of the image, read off the buffer. *)
Lemma pixel_bytes (d : list Z) (px py : nat) (c : Pixel) :
  holdsOn (expectedByte width (cellPixelOf r colour)) (imageAt width height) d ->
  length d = (4 * width * height)%nat ->
  (px < width)%nat -> (py < height)%nat ->
  colour (py / r)%nat (px / r)%nat = Returned c ->
  nth ((py * width + px) * 4) d 0%Z = JS.toUint8 (px_r c)
  /\ nth ((py * width + px) * 4 + 1) d 0%Z = JS.toUint8 (px_g c)
  /\ nth ((py * width + px) * 4 + 2) d 0%Z = JS.toUint8 (px_b c)
  /\ nth ((py * width + px) * 4 + 3) d 0%Z = JS.toUint8 (px_a c).
Proof.
  intros H Hlen Hpx Hpy Hc.
  assert (Hch : forall ch, (ch < 4)%nat ->
            nth ((py * width + px) * 4 + ch) d 0%Z = channelByte c ch).
  { intros ch Hlt. rewrite H.
    - rewrite expectedByte_at by assumption. unfold cellPixelOf. rewrite Hc. reflexivity.
    - exists px, py. repeat split; try assumption. exists ch. split; [assumption | reflexivity].
    - rewrite Hlen. nia. }
  pose proof (Hch 0%nat ltac:(lia)) as H0. rewrite Nat.add_0_r in H0.
  repeat split; [exact H0 | apply (Hch 1%nat) | apply (Hch 2%nat) | apply (Hch 3%nat)];
    lia.
Qed.

End BufferContents.

(* ===================================================================== *)
(** ** The buffers of the two variants *)
(* ===================================================================== *)

Section Frames.

Lemma setPixel_frame (width px py k : nat) (c : Pixel) (d : list Z) :
  ~ pixelAt width px py k ->
  nth k (setPixel width px py c d) 0%Z = nth k d 0%Z.
Proof.
  intros Hk. unfold setPixel.
  rewrite !nth_write_other; [reflexivity | | | |];
    intros ->; apply Hk.
  - exists 0%nat. split; lia.
  - exists 1%nat. split; lia.
  - exists 2%nat. split; lia.
  - exists 3%nat. split; lia.
Qed.

Lemma fold_left_frame {A : Type} (step : list Z -> A -> list Z) (l : list A)
  (k : nat) :
  (forall a d, In a l -> nth k (step d a) 0%Z = nth k d 0%Z) ->
  forall d, nth k (fold_left step l d) 0%Z = nth k d 0%Z.
Proof.
  induction l as [| a l IH]; intros Hstep d; simpl; [reflexivity |].
  rewrite IH by (intros b e Hb; apply Hstep; right; assumption).
  apply Hstep. left. reflexivity.
Qed.

Lemma fillCell_frame (width height r x y k : nat) (c : Pixel) (d : list Z) :
  ~ cellAt width height r x y k ->
  nth k (fillCell width height r x y c d) 0%Z = nth k d 0%Z.
Proof.
  intros Hk. unfold fillCell.
  apply fold_left_frame. intros dy e Hdy. apply in_seq in Hdy.
  apply fold_left_frame. intros dx e' Hdx. apply in_seq in Hdx. cbv zeta.
  destruct ((x + dx <? width)%nat && (y + dy <? height)%nat) eqn:Eguard;
    [| reflexivity].
  apply andb_true_iff in Eguard as [Ex Ey].
  apply Nat.ltb_lt in Ex. apply Nat.ltb_lt in Ey.
  apply setPixel_frame. intros Hp. apply Hk.
  exists dx, dy. repeat split; try lia. assumption.
Qed.

Lemma pixelAt_unique (width px py px' py' k : nat) :
  (px < width)%nat -> (px' < width)%nat ->
  pixelAt width px py k -> pixelAt width px' py' k -> px = px' /\ py = py'.
Proof.
  intros Hpx Hpx' (ch & Hch & Hk) (ch' & Hch' & Hk').
  destruct (pixel_index_decode width px py ch Hpx Hch) as (Hx & Hy & _).
  destruct (pixel_index_decode width px' py' ch' Hpx' Hch') as (Hx' & Hy' & _).
  rewrite <- Hk in Hx, Hy. rewrite <- Hk' in Hx', Hy'. split; congruence.
Qed.

Lemma forM_rows_map {S : Type} (body : nat -> nat -> S -> outcome S)
  (f g : nat -> nat) (lx ly : list nat) (s : S) :
  forM (fun d y => forM (fun d x => body y x d) (map f lx) d) (map g ly) s
  = forM (fun d i => forM (fun d j => body (g i) (f j) d) lx d) ly s.
Proof.
  revert s. induction ly as [| a ly IH]; intros s; simpl; [reflexivity |].
  rewrite forM_map.
  destruct (forM (fun d j => body (g a) (f j) d) lx s); simpl; auto.
Qed.

End Frames.

(** X20: when [interpolateIDW_directdraw] returns (cell size at least 1),
    the buffer has the size of the image and every pixel [(px, py)] holds
    the four bytes of the colour computed for its cell, the cell whose
    origin is [(px / r * r, py / r * r)]: nothing of the prefill or of
    another cell is left in it. *)
Theorem directdraw_pixel_is_cell_colour
  (points : list Point) (options : Options.t) (fresh buf : list Z)
  (px py : nat) :
  DirectDraw.interpolateIDW_directdraw points options fresh = Returned buf ->
  length fresh = (4 * Options.width options * Options.height options)%nat ->
  (1 <= orDefault (Options.cellSize options) 10%nat)%nat ->
  (px < Options.width options)%nat -> (py < Options.height options)%nat ->
  exists grad bg c,
    createGradientLookup (Options.gradient options) = Returned grad
    /\ index grad 0 = Some bg
    /\ DirectDraw.cellPixel points (orDefault (Options.exp options) 2)
         (orDefault (Options.max options) 1) grad bg
         (DirectDraw.cellCentre (Options.width options) (Options.height options)
            (orDefault (Options.cellSize options) 10%nat)
            (px / orDefault (Options.cellSize options) 10%nat
             * orDefault (Options.cellSize options) 10%nat)
            (py / orDefault (Options.cellSize options) 10%nat
             * orDefault (Options.cellSize options) 10%nat)
            (Options.bounds options))
       = Returned c
    /\ length buf = (4 * Options.width options * Options.height options)%nat
    /\ nth ((py * Options.width options + px) * 4) buf 0%Z = JS.toUint8 (px_r c)
    /\ nth ((py * Options.width options + px) * 4 + 1) buf 0%Z
       = JS.toUint8 (px_g c)
    /\ nth ((py * Options.width options + px) * 4 + 2) buf 0%Z
       = JS.toUint8 (px_b c)
    /\ nth ((py * Options.width options + px) * 4 + 3) buf 0%Z
       = JS.toUint8 (px_a c).
Proof.
  intros Hret Hlen Hr Hpx Hpy.
  unfold DirectDraw.interpolateIDW_directdraw in Hret.
  set (w := Options.width options) in *.
  set (h := Options.height options) in *.
  set (r := orDefault (Options.cellSize options) 10%nat) in *.
  destruct (createGradientLookup (Options.gradient options)) as [grad | |];
    simpl in Hret; try discriminate.
  destruct (index grad 0) as [bg |] eqn:Hbg; [| discriminate].
  unfold DirectDraw.drawCells in Hret.
  destruct (r =? 0)%nat eqn:Er; [apply Nat.eqb_eq in Er; lia |].
  set (colour := fun i j =>
         DirectDraw.cellPixel points (orDefault (Options.exp options) 2)
           (orDefault (Options.max options) 1) grad bg
           (DirectDraw.cellCentre w h r (j * r) (i * r) (Options.bounds options))).
  destruct (cell_loops_contents w h r colour Hr _ _ _ _ eq_refl eq_refl Hret)
    as (Hholds & Hlenbuf & Hall).
  rewrite prefill_length in Hlenbuf.
  destruct (Hall (py / r)%nat (px / r)%nat) as [c Hc].
  { apply ceilDiv_spec; [assumption |].
    pose proof (Nat.Div0.mul_div_le py r). lia. }
  { apply ceilDiv_spec; [assumption |].
    pose proof (Nat.Div0.mul_div_le px r). lia. }
  exists grad, bg, c. split; [reflexivity |]. split; [exact Hbg |].
  split; [exact Hc |]. split; [congruence |].
  apply (pixel_bytes w h r colour Hr buf px py c); try assumption. congruence.
Qed.

(** X21: when [interpolateIDW] returns (cell size at least 1), the buffer
    has the size of the image and every pixel holds the table colour of
    its cell with alpha 255: the loops leave no byte of the allocated
    buffer unwritten. *)
Theorem fine_pixel_is_cell_colour
  (points : list Point) (options : Options.t) (fresh buf : list Z)
  (px py : nat) :
  FineGrained.interpolateIDW points options fresh = Returned buf ->
  length fresh = (4 * Options.width options * Options.height options)%nat ->
  (1 <= orDefault (Options.cellSize options) 1%nat)%nat ->
  (px < Options.width options)%nat -> (py < Options.height options)%nat ->
  exists grad c,
    createGradientLookup (Options.gradient options) = Returned grad
    /\ FineGrained.cellPixel points (Options.exp options)
         (orDefault (Options.max options) 1) grad
         (pixelToLatLng
            (INR (px / orDefault (Options.cellSize options) 1%nat
                  * orDefault (Options.cellSize options) 1%nat)
             + INR (orDefault (Options.cellSize options) 1%nat) / 2)
            (INR (py / orDefault (Options.cellSize options) 1%nat
                  * orDefault (Options.cellSize options) 1%nat)
             + INR (orDefault (Options.cellSize options) 1%nat) / 2)
            (INR (Options.width options)) (INR (Options.height options))
            (Options.bounds options))
       = Returned c
    /\ px_a c = Fin 255
    /\ length buf = (4 * Options.width options * Options.height options)%nat
    /\ nth ((py * Options.width options + px) * 4) buf 0%Z = JS.toUint8 (px_r c)
    /\ nth ((py * Options.width options + px) * 4 + 1) buf 0%Z
       = JS.toUint8 (px_g c)
    /\ nth ((py * Options.width options + px) * 4 + 2) buf 0%Z
       = JS.toUint8 (px_b c)
    /\ nth ((py * Options.width options + px) * 4 + 3) buf 0%Z = 255%Z.
Proof.
  intros Hret Hlen Hr Hpx Hpy.
  unfold FineGrained.interpolateIDW in Hret.
  set (w := Options.width options) in *.
  set (h := Options.height options) in *.
  set (r := orDefault (Options.cellSize options) 1%nat) in *.
  destruct (createGradientLookup (Options.gradient options)) as [grad | |];
    simpl in Hret; try discriminate.
  unfold FineGrained.drawCells in Hret.
  destruct (r =? 0)%nat eqn:Er; [apply Nat.eqb_eq in Er; lia |].
  rewrite !stepRange_cells in Hret by assumption.
  rewrite forM_rows_map in Hret.
  set (colour := fun i j =>
         FineGrained.cellPixel points (Options.exp options)
           (orDefault (Options.max options) 1) grad
           (pixelToLatLng (INR (j * r) + INR r / 2) (INR (i * r) + INR r / 2)
              (INR w) (INR h) (Options.bounds options))).
  destruct (cell_loops_contents w h r colour Hr _ _ _ _ eq_refl eq_refl Hret)
    as (Hholds & Hlenbuf & Hall).
  destruct (Hall (py / r)%nat (px / r)%nat) as [c Hc].
  { apply ceilDiv_spec; [assumption |].
    pose proof (Nat.Div0.mul_div_le py r). lia. }
  { apply ceilDiv_spec; [assumption |].
    pose proof (Nat.Div0.mul_div_le px r). lia. }
  assert (Ha : px_a c = Fin 255).
  { unfold colour, FineGrained.cellPixel in Hc.
    destruct (tableGet grad _) as [[[c0 c1] c2] |]; [| discriminate].
    injection Hc as <-. reflexivity. }
  exists grad, c. split; [reflexivity |]. split; [exact Hc |].
  split; [exact Ha |]. split; [congruence |].
  destruct (pixel_bytes w h r colour Hr buf px py c) as (B0 & B1 & B2 & B3);
    try assumption; [congruence |].
  repeat split; try assumption.
  rewrite B3, Ha. apply (toUint8_int 255).
Qed.

(** X22: the cells write disjoint blocks: filling a cell changes no byte
    outside its block and keeps the size of the buffer, and two cells of
    the grid that both contain a buffer index are the same cell. *)
Theorem cells_write_disjoint_blocks
  (width height r i j i' j' k : nat) (c : Pixel) (d : list Z) :
  (1 <= r)%nat ->
  length (fillCell width height r (j * r) (i * r) c d) = length d
  /\ (~ cellAt width height r (j * r) (i * r) k ->
      nth k (fillCell width height r (j * r) (i * r) c d) 0%Z = nth k d 0%Z)
  /\ (cellAt width height r (j * r) (i * r) k ->
      cellAt width height r (j' * r) (i' * r) k -> i = i' /\ j = j').
Proof.
  intros Hr. split; [apply fillCell_length |]. split; [apply fillCell_frame |].
  intros (dx & dy & Hdx & Hdy & Hx & _ & Hp) (dx' & dy' & Hdx' & Hdy' & Hx' & _ & Hp').
  destruct (pixelAt_unique _ _ _ _ _ _ Hx Hx' Hp Hp') as [Ex Ey].
  destruct (cell_of_pixel r Hr i j dx dy Hdx Hdy) as [Hj Hi].
  destruct (cell_of_pixel r Hr i' j' dx' dy' Hdx' Hdy') as [Hj' Hi'].
  rewrite Ex in Hj. rewrite Ey in Hi. split; congruence.
Qed.

Lemma cells_write_disjoint_blocks_witness :
  length (fillCell 4 4 2 (1 * 2) (0 * 2)
            {| px_r := Fin 9; px_g := Fin 9; px_b := Fin 9; px_a := Fin 255 |}
            (repeat 0%Z 64))
  = length (repeat 0%Z 64).
Proof.
  apply (cells_write_disjoint_blocks 4 4 2 0 1 0 1 0
           {| px_r := Fin 9; px_g := Fin 9; px_b := Fin 9; px_a := Fin 255 |}
           (repeat 0%Z 64)).
  lia.
Defined.

(** X23: for a step of at least 1 the stepping loop
    [for (v = 0; v < stop; v += step)] of the fine-grained variant ends
    after [Math.ceil(stop / step)] iterations, and visits the cell origins
    [0, step, 2 * step, ...] that the direct-draw variant enumerates by
    index. *)
Theorem stepping_loop_visits_cell_origins (stop step : nat) :
  (1 <= step)%nat ->
  stepRange stop step
  = map (fun i => (i * step)%nat) (seq 0 (ceilDiv stop step))
  /\ length (stepRange stop step) = ceilDiv stop step
  /\ forall v, In v (stepRange stop step) -> (v < stop)%nat.
Proof.
  intros Hs. pose proof (stepRange_cells stop step Hs) as Heq.
  split; [assumption |]. rewrite Heq. split.
  - rewrite length_map, length_seq. reflexivity.
  - intros v Hv. apply in_map_iff in Hv as (i & <- & Hi).
    apply in_seq in Hi. apply ceilDiv_spec; [assumption | lia].
Qed.

Lemma stepping_loop_visits_cell_origins_witness :
  stepRange 10 4 = map (fun i => (i * 4)%nat) (seq 0 (ceilDiv 10 4))
  /\ length (stepRange 10 4) = ceilDiv 10 4
  /\ forall v, In v (stepRange 10 4) -> (v < 10)%nat.
Proof. apply (stepping_loop_visits_cell_origins 10 4). lia. Defined.

(* ===================================================================== *)
(** ** The fine-grained variant and the exponent *)
(* ===================================================================== *)

Section FineFacts.

Lemma fine_cellPixel_returns (points : list Point) (e : option R) (max : R)
  (grad : list Entry) (latlng : LatLng) :
  length grad = 256%nat ->
  0 < max -> expOmittedOrPositive e -> points <> [] ->
  (forall p, In p points -> 0 <= pt_val p) ->
  exists c, FineGrained.cellPixel points e max grad latlng = Returned c.
Proof.
  intros Hlen Hm He Hne Hvals.
  rewrite (fine_index points e max grad He) by lra.
  assert (He2 : 0 <= orDefault e 2) by (destruct e; simpl in *; lra).
  destruct (cell_index_in_table latlng (orDefault e 2) max points grad
              Hlen Hm He2 Hne Hvals) as (k & entry & -> & _ & ->).
  destruct entry as [[c0 c1] c2]. eexists; reflexivity.
Qed.

Lemma fine_returns (points : list Point) (options : Options.t) (fresh : list Z) :
  Options.gradient options <> [] ->
  (1 <= orDefault (Options.cellSize options) 1%nat)%nat ->
  0 < orDefault (Options.max options) 1 ->
  expOmittedOrPositive (Options.exp options) ->
  points <> [] ->
  (forall p, In p points -> 0 <= pt_val p) ->
  exists buf, FineGrained.interpolateIDW points options fresh = Returned buf.
Proof.
  intros Hgrad Hr Hm He Hne Hvals. unfold FineGrained.interpolateIDW.
  destruct (table_entries _ Hgrad) as (grad & -> & Hlen & _). simpl.
  unfold FineGrained.drawCells.
  destruct (orDefault (Options.cellSize options) 1%nat =? 0)%nat eqn:Er;
    [apply Nat.eqb_eq in Er; lia |].
  apply forM_returns. intros d y. apply forM_returns. intros d' x.
  unfold FineGrained.cellStep.
  match goal with
  | |- context [FineGrained.cellPixel ?p ?e ?m ?g ?l] =>
      destruct (fine_cellPixel_returns p e m g l Hlen Hm He Hne Hvals) as [c ->]
  end.
  eexists; reflexivity.
Qed.

(** Without a guard on [max], dividing by [max = 0] never gives a table
    index. *)
Lemma index_over_zero_max (grad : list Entry) (v : num) :
  tableGet grad
    (JS.round (JS.mul (JS.div (JS.min v (Fin 0)) (Fin 0)) (Fin 255)))
  = None.
Proof.
  destruct v as [x | | |]; simpl; try reflexivity.
  - destruct (Req_dec_T 0 0); [| lra].
    destruct (Rle_dec x 0) as [Hle | Hgt].
    + rewrite Rmin_left by assumption.
      destruct Hle as [Hlt | ->].
      * rewrite inf_signed_neg by assumption. simpl.
        rewrite inf_signed_pos by lra. reflexivity.
      * rewrite inf_signed_zero by reflexivity. reflexivity.
    + rewrite Rmin_right by lra.
      rewrite inf_signed_zero by reflexivity. reflexivity.
  - destruct (Req_dec_T 0 0); [| lra].
    rewrite inf_signed_zero by reflexivity. reflexivity.
  - destruct (Rlt_dec 0 0); [lra |]. simpl.
    rewrite inf_signed_pos by lra. reflexivity.
Qed.

Lemma fine_cellPixel_max_zero (points : list Point) (e : option R)
  (grad : list Entry) (latlng : LatLng) :
  FineGrained.cellPixel points e 0 grad latlng = Thrown TypeError.
Proof.
  unfold FineGrained.cellPixel. rewrite index_over_zero_max. reflexivity.
Qed.

Lemma stepRange_first (stop step : nat) :
  (0 < stop)%nat -> exists rest, stepRange stop step = 0%nat :: rest.
Proof.
  intros Hs. unfold stepRange. destruct stop as [| n]; [lia |].
  simpl. eexists; reflexivity.
Qed.

Lemma effectiveExp_zero :
  FineGrained.effectiveExp (Some 0) = FineGrained.effectiveExp None.
Proof. simpl. destruct (Req_dec_T 0 0); [reflexivity | lra]. Qed.

Lemma fold_left_ext {A B : Type} (f g : A -> B -> A) (l : list B) (a : A) :
  (forall x y, f x y = g x y) -> fold_left f l a = fold_left g l a.
Proof.
  intros H. revert a. induction l as [| b l IH]; intros a; simpl;
    [reflexivity |].
  rewrite H. apply IH.
Qed.

Lemma forM_ext {A S : Type} (f g : S -> A -> outcome S) (l : list A) (s : S) :
  (forall x y, f x y = g x y) -> forM f l s = forM g l s.
Proof.
  intros H. revert s. induction l as [| a l IH]; intros s; simpl;
    [reflexivity |].
  rewrite H. destruct (g s a); simpl; auto.
Qed.

Lemma fine_cellPixel_exp_zero (points : list Point) (max : R)
  (grad : list Entry) (latlng : LatLng) :
  FineGrained.cellPixel points (Some 0) max grad latlng
  = FineGrained.cellPixel points None max grad latlng.
Proof.
  unfold FineGrained.cellPixel.
  rewrite (fold_left_ext (FineGrained.accumulate latlng (Some 0))
             (FineGrained.accumulate latlng None)); [reflexivity |].
  intros acc p. unfold FineGrained.accumulate. rewrite effectiveExp_zero.
  reflexivity.
Qed.

Lemma termWeight_exp_zero (d : R) : termWeight d 0 = 1.
Proof.
  unfold termWeight, dist2, JS.or, JS.pow.
  destruct (Req_dec_T 0 0); [| lra]. simpl.
  destruct (Req_dec_T 1 0); [lra |]. field.
Qed.

Lemma sumOver_ones (points : list Point) :
  sumOver (fun _ => 1) points = INR (length points).
Proof.
  induction points as [| p points IH]; [reflexivity |].
  change (sumOver (fun _ => 1) (p :: points))
    with (1 + sumOver (fun _ => 1) points).
  change (length (p :: points)) with (S (length points)).
  rewrite IH, S_INR. ring.
Qed.

End FineFacts.

(** X24: the fine-grained variant has no guard for [max = 0]: for an image
    of at least one pixel and a cell size of at least 1 [interpolateIDW]
    then throws a [TypeError], for every point list, gradient and exponent
    (the direct-draw variant draws the background instead). *)
Theorem fine_throws_when_max_is_zero
  (points : list Point) (options : Options.t) (fresh : list Z) :
  Options.max options = Some 0 ->
  (1 <= orDefault (Options.cellSize options) 1%nat)%nat ->
  (0 < Options.width options)%nat -> (0 < Options.height options)%nat ->
  FineGrained.interpolateIDW points options fresh = Thrown TypeError.
Proof.
  intros Hmax Hr Hw Hh. unfold FineGrained.interpolateIDW. rewrite Hmax.
  cbn [orDefault].
  destruct (createGradientLookup_outcome (Options.gradient options))
    as [-> | (grad & bg & -> & _)]; [reflexivity |].
  simpl. unfold FineGrained.drawCells.
  destruct (orDefault (Options.cellSize options) 1%nat =? 0)%nat eqn:Er;
    [apply Nat.eqb_eq in Er; lia |].
  destruct (stepRange_first (Options.height options)
              (orDefault (Options.cellSize options) 1%nat) Hh) as [ys ->].
  destruct (stepRange_first (Options.width options)
              (orDefault (Options.cellSize options) 1%nat) Hw) as [xs ->].
  cbn [forM]. unfold FineGrained.cellStep at 1.
  rewrite fine_cellPixel_max_zero. reflexivity.
Qed.

Lemma fine_throws_when_max_is_zero_witness :
  FineGrained.interpolateIDW tinyPoints tinyOptionsMaxZero [0; 0; 0; 0]%Z
  = Thrown TypeError.
Proof.
  apply (fine_throws_when_max_is_zero tinyPoints tinyOptionsMaxZero
           [0; 0; 0; 0]%Z).
  - reflexivity.
  - simpl. lia.
  - simpl. lia.
  - simpl. lia.
Defined.

(** X25: the fine-grained variant reads the exponent as [options.exp || 2]:
    an exponent of 0 is replaced by 2, so the call has the outcome of the
    call with the exponent omitted. *)
Theorem fine_exp_zero_is_default
  (points : list Point) (fresh : list Z) (width height : nat)
  (cellSize : option nat) (max : option R) (gradient : Gradient)
  (bounds : Bounds) :
  FineGrained.interpolateIDW points
    (Options.mk width height cellSize max gradient bounds (Some 0)) fresh
  = FineGrained.interpolateIDW points
      (Options.mk width height cellSize max gradient bounds None) fresh.
Proof.
  unfold FineGrained.interpolateIDW.
  cbn [Options.width Options.height Options.cellSize Options.max
       Options.gradient Options.bounds Options.exp].
  destruct (createGradientLookup gradient) as [grad | |]; simpl;
    try reflexivity.
  assert (Hstep : forall y x d,
            FineGrained.cellStep width height (orDefault cellSize 1%nat) points
              (Some 0) (orDefault max 1) grad bounds y x d
            = FineGrained.cellStep width height (orDefault cellSize 1%nat) points
                None (orDefault max 1) grad bounds y x d).
  { intros y x d. unfold FineGrained.cellStep.
    rewrite fine_cellPixel_exp_zero. reflexivity. }
  unfold FineGrained.drawCells.
  destruct (orDefault cellSize 1%nat =? 0)%nat.
  - destruct (height =? 0)%nat; [reflexivity |].
    destruct (width =? 0)%nat; [reflexivity |].
    rewrite Hstep. reflexivity.
  - apply forM_ext. intros d y. apply forM_ext. intros d' x. apply Hstep.
Qed.

(** X26: in the direct-draw loop an exponent of 0 gives every sample the
    weight 1: the interpolated value of every cell is the arithmetic mean
    of the sample values. *)
Theorem cellValue_exp_zero_is_mean (latlng : LatLng) (points : list Point) :
  points <> [] ->
  cellValue latlng 0 points
  = Fin (sumOver pt_val points / INR (length points)).
Proof.
  intros Hne.
  assert (Hw : sumOver (pointWeight latlng 0) points = INR (length points)).
  { rewrite <- sumOver_ones. apply sumOver_ext. intros p _.
    apply termWeight_exp_zero. }
  assert (Hpos : 0 < INR (length points)).
  { apply lt_0_INR. destruct points; [congruence | simpl; lia]. }
  rewrite cellValue_quotient by (rewrite Hw; assumption).
  rewrite Hw. f_equal. f_equal. apply sumOver_ext. intros p _.
  unfold pointWeight. rewrite termWeight_exp_zero. ring.
Qed.

Lemma cellValue_exp_zero_is_mean_witness :
  cellValue origin 0 twoSamples
  = Fin (sumOver pt_val twoSamples / INR (length twoSamples)).
Proof. apply (cellValue_exp_zero_is_mean origin twoSamples). discriminate. Defined.



Lemma directdraw_pixel_is_cell_colour_witness :
  exists buf grad bg c,
    DirectDraw.interpolateIDW_directdraw twoSamples smallOptions smallFresh
    = Returned buf
    /\ createGradientLookup fullGradient = Returned grad
    /\ index grad 0 = Some bg
    /\ DirectDraw.cellPixel twoSamples 2 100 grad bg
         (DirectDraw.cellCentre 3 2 2 2 0 bounds_0_10) = Returned c
    /\ length buf = 24%nat
    /\ nth 20 buf 0%Z = JS.toUint8 (px_r c)
    /\ nth 23 buf 0%Z = JS.toUint8 (px_a c).
Proof.
  destruct (directdraw_returns twoSamples smallOptions smallFresh)
    as (buf & Hbuf & _);
    [discriminate | simpl; lia | simpl; lra | simpl; lra | discriminate
    | intros p [<- | [<- | []]]; simpl; lra |].
  destruct (directdraw_pixel_is_cell_colour twoSamples smallOptions smallFresh
              buf 2 1 Hbuf)
    as (grad & bg & c & Hg & Hbg & Hc & Hlen & B0 & _ & _ & B3);
    [reflexivity | simpl; lia | simpl; lia | simpl; lia |].
  exists buf, grad, bg, c. repeat split; assumption.
Defined.

Lemma fine_pixel_is_cell_colour_witness :
  exists buf grad c,
    FineGrained.interpolateIDW twoSamples smallOptions smallFresh = Returned buf
    /\ createGradientLookup fullGradient = Returned grad
    /\ px_a c = Fin 255
    /\ length buf = 24%nat
    /\ nth 20 buf 0%Z = JS.toUint8 (px_r c)
    /\ nth 23 buf 0%Z = 255%Z.
Proof.
  destruct (fine_returns twoSamples smallOptions smallFresh) as (buf & Hbuf);
    [discriminate | simpl; lia | simpl; lra | exact I | discriminate
    | intros p [<- | [<- | []]]; simpl; lra |].
  destruct (fine_pixel_is_cell_colour twoSamples smallOptions smallFresh
              buf 2 1 Hbuf)
    as (grad & c & Hg & Hc & Ha & Hlen & B0 & _ & _ & B3);
    [reflexivity | simpl; lia | simpl; lia | simpl; lia |].
  exists buf, grad, c. repeat split; assumption.
Defined.

(* ===================================================================== *)
(** ** The request handler *)
(* ===================================================================== *)

Section HandlerFacts.



Lemma directdraw_empty_throws (options : Options.t) (fresh : list Z) :
  Options.max options <> Some 0 ->
  (0 < Options.width options)%nat -> (0 < Options.height options)%nat ->
  DirectDraw.interpolateIDW_directdraw [] options fresh = Thrown TypeError.
Proof.
  intros Hmax Hw Hh. unfold DirectDraw.interpolateIDW_directdraw.
  destruct (createGradientLookup_outcome (Options.gradient options))
    as [-> | (grad & bg & -> & Hbg)]; [reflexivity |].
  simpl. rewrite Hbg. apply drawCells_empty_throws; try assumption.
  destruct (Options.max options) as [m |]; simpl; [| lra].
  intros ->. apply Hmax. reflexivity.
Qed.

End HandlerFacts.



(** X29: an empty [points] array passes the check of the required
    parameters ([![]] is false); unless [max] is 0 the renderer then throws
    and the handler answers 500, not 400, whatever the gradient, the cell
    size and the exponent. *)
Theorem handler_empty_points_is_server_error
  (alloc : nat -> list Z) (body : Server.Body)
  (w h : nat) (g : Gradient) (bd : Bounds) :
  Server.points body = Some [] -> Server.width body = Some w ->
  Server.height body = Some h -> Server.gradient body = Some g ->
  Server.bounds body = Some bd ->
  (0 < w)%nat -> (0 < h)%nat ->
  Server.max body <> Some 0 ->
  Server.handler alloc body = Returned (Server.status500 TypeError).
Proof.
  intros Hp Hw Hh Hg Hb Hwpos Hhpos Hmax. unfold Server.handler.
  rewrite Hp, Hw, Hh, Hg, Hb.
  destruct (w =? 0)%nat eqn:Ew; [apply Nat.eqb_eq in Ew; lia |].
  destruct (h =? 0)%nat eqn:Eh; [apply Nat.eqb_eq in Eh; lia |].
  cbn [orb]. rewrite directdraw_empty_throws; auto.
Qed.

Lemma handler_empty_points_is_server_error_witness :
  Server.handler zeroFilled (smallBody [] None)
  = Returned (Server.status500 TypeError).
Proof.
  apply (handler_empty_points_is_server_error zeroFilled (smallBody [] None)
           3 2 fullGradient bounds_0_10);
    try reflexivity; try (simpl; lia).
  simpl. intros H. injection H as H. lra.
Defined.


